(** * moodleapp: the CoreEvents bus and the app routing table

    A shallow embedding of [CoreEvents] (singletons/events.ts: [on],
    [onMultiple], [trigger], [triggerUnique]) and of the routing glue of
    app/app-routing.module.ts ([buildAppRoutes], [buildConditionalUrlMatcher],
    [conditionalRoutes], [resolveModuleRoutes]), with the properties of the
    specification stated and proved over it.

    JavaScript objects are kept in an explicit heap, because both files
    mutate objects they were handed: [Object.assign] writes [siteId] into the
    payload every observer receives, and [buildAppRoutes] pushes a guard into
    the arrays of the contributed routes.  Object literals used as maps are
    read as JavaScript reads them, through [Object.prototype]. *)

From stdpp Require Import gmap strings list fin_maps sorting.
From Stdlib Require Import ZArith Ascii.

(** ** JavaScript values and objects *)

Module JS.

(** Primitive values.  Numbers are integers or NaN. *)
Inductive prim :=
  | PBool (b : bool)
  | PNum (z : Z)
  | PNaN
  | PStr (s : string).

(** A value is [undefined], [null], a primitive or a reference into the heap. *)
Inductive value :=
  | VUndefined
  | VNull
  | VPrim (p : prim)
  | VRef (l : nat).

(** What can still be written to an object: everything, as long as it is
    extensible; after [Object.preventExtensions] or [Object.seal], the
    properties it has; after [Object.freeze], nothing.  An extensible object
    whose [siteId] was made read-only behaves as a frozen one here. *)
Inductive integrity :=
  | Extensible
  | Sealed
  | Frozen.

(** An object with data properties.  The event payload types all extend
    [CoreEventSiteData = { siteId?: string }], so the [siteId] property is
    kept apart from the other properties.  Accessor properties and proxies
    are not modelled. *)
Record object := Object {
  obj_siteId : option string;
  obj_fields : list (string * value);
  obj_integrity : integrity
}.

Abbreviation heap := (list object).

#[global] Instance prim_eq_dec : EqDecision prim.
Proof. solve_decision. Defined.
#[global] Instance value_eq_dec : EqDecision value.
Proof. solve_decision. Defined.

(** ToBoolean. *)
Definition truthy (v : value) : bool :=
  match v with
  | VUndefined | VNull => false
  | VPrim (PBool b) => b
  | VPrim (PNum z) => negb (z =? 0)%Z
  | VPrim PNaN => false
  | VPrim (PStr s) => negb (String.eqb s "")
  | VRef _ => true
  end.

(** ToBoolean of an optional string parameter ([siteId?: string]): [undefined]
    and the empty string are falsy. *)
Definition truthy_str (s : option string) : bool :=
  match s with
  | None => false
  | Some s => negb (String.eqb s "")
  end.

(** The own [siteId] property of a value, when it is an object that has one. *)
Definition own_siteId (h : heap) (v : value) : option string :=
  match v with
  | VRef l => h !! l ≫= obj_siteId
  | _ => None
  end.

(** Whether the assignment [target.siteId = s] goes through: the property
    is there and writable, or it can be added. *)
Definition can_set_siteId (o : object) : bool :=
  match obj_integrity o with
  | Extensible => true
  | Sealed => match obj_siteId o with Some _ => true | None => false end
  | Frozen => false
  end.

(** [target.siteId = s] on the object at [l]; the other properties stay. *)
Definition write_siteId (l : nat) (s : string) (h : heap) : heap :=
  match h !! l with
  | Some o => <[l := Object (Some s) (obj_fields o) (obj_integrity o)]> h
  | None => h
  end.

(** [undefined == s] is false, and two strings are [==] when they are equal. *)
Definition loose_eq_str (x : option string) (s : string) : bool :=
  match x with
  | Some x => String.eqb x s
  | None => false
  end.

(** The properties every object literal inherits from [Object.prototype]
    (ECMAScript, with the legacy accessors of its annex B). *)
Definition Object_prototype : list string :=
  ["constructor"; "hasOwnProperty"; "isPrototypeOf"; "propertyIsEnumerable";
   "toLocaleString"; "toString"; "valueOf"; "__proto__";
   "__defineGetter__"; "__defineSetter__"; "__lookupGetter__"; "__lookupSetter__"].

Definition inherited (name : string) : bool :=
  bool_decide (name ∈ Object_prototype).

(** What [object[name]] finds in an object literal used as a map: an own
    property; or a property of [Object.prototype], which is a function (for
    [__proto__], the prototype itself), hence truthy, not [undefined], and
    without a property [data], [next] or [subscribe]; or nothing. *)
Inductive property (A : Type) :=
  | Own (a : A)
  | Inherited
  | Undefined.
Arguments Own {A} a.
Arguments Inherited {A}.
Arguments Undefined {A}.

(** [object[name]], for the object whose own properties are [m]. *)
Definition get {A} (m : gmap string A) (name : string) : property A :=
  match m !! name with
  | Some a => Own a
  | None => if inherited name then Inherited else Undefined
  end.

End JS.
Import JS.

(** ** The event bus *)

(** A callback is known by its identity and by whether it throws when it is
    called.  What a callback does to the rest of the application is not part
    of the bus: its calls are recorded in the state, and it neither calls the
    bus again nor writes to the payload it is handed. *)
Record callback := Callback {
  cb_id : nat;
  cb_throws : bool
}.

(** One call of a callback: through which subscription ([None] for the replay
    of a unique event inside [on]), which callback, with which value. *)
Record call := Call {
  call_via : option nat;
  call_cb : nat;
  call_value : value
}.

(** The function handed to [Subject.subscribe] in [on] closes over [callBack]
    and [siteId]; [sub_id] is the identity of the rxjs subscription. *)
Record Subscriber := MkSubscriber {
  sub_id : nat;
  sub_callBack : callback;
  sub_siteId : option string
}.

#[global] Instance callback_eq_dec : EqDecision callback.
Proof. solve_decision. Defined.
#[global] Instance Subscriber_eq_dec : EqDecision Subscriber.
Proof. solve_decision. Defined.

(** rxjs [Subject], an external library (version 6 with this application),
    as far as the bus uses it.  A subject holds its observers in subscription
    order; [next] hands the value to each of them in that order,
    synchronously.  The subscriber that rxjs puts around an observer catches
    what the observer throws: it ends that subscription, hands the error to
    the host, which throws it again from a timer, and the delivery goes on
    with the next observer. *)
Record Subject := MkSubject {
  observers : list Subscriber
}.

(** The records of [uniqueEvents]: [{ data: unknown }]. *)
Record UniqueEvent := MkUniqueEvent {
  data : value
}.

Inductive exn :=
  | TypeError
  | CallbackThrew (id : nat).

(** The static state of the class [CoreEvents], together with the heap of
    payload objects, the next subscription identity, the calls made so far
    and the errors handed to the host.  [observables] and [uniqueEvents] are
    object literals used as maps from event names: they are known by their
    own properties and read with [get].  [CoreLogger] only writes diagnostics
    and is left out. *)
Record CoreEvents := MkCoreEvents {
  observables : gmap string Subject;
  uniqueEvents : gmap string UniqueEvent;
  objects : heap;
  next_subscription : nat;
  calls : list call;
  reported : list exn
}.

Definition initial : CoreEvents := MkCoreEvents ∅ ∅ [] 0 [] [].

Inductive result (A : Type) :=
  | Returned (a : A)
  | Thrown (e : exn).
Arguments Returned {A} a.
Arguments Thrown {A} e.

(** Computations over the bus: they may throw, and what they did to the state
    before throwing stays done. *)
Definition M (A : Type) : Type := CoreEvents → result A * CoreEvents.

Definition ret {A} (a : A) : M A := λ st, (Returned a, st).
Definition throw {A} (e : exn) : M A := λ st, (Thrown e, st).
Definition bind {A B} (m : M A) (k : A → M B) : M B :=
  λ st, match m st with
        | (Returned a, st') => k a st'
        | (Thrown e, st') => (Thrown e, st')
        end.
Definition gets {A} (f : CoreEvents → A) : M A := λ st, (Returned (f st), st).
Definition modify (f : CoreEvents → CoreEvents) : M unit := λ st, (Returned tt, f st).

(** [try { m } catch (e) { handler(e) }]. *)
Definition try_catch {A} (m : M A) (handler : exn → M A) : M A :=
  λ st, match m st with
        | (Returned a, st') => (Returned a, st')
        | (Thrown e, st') => handler e st'
        end.

Declare Scope bus_scope.
Delimit Scope bus_scope with bus.
Notation "'let!' x ':=' m 'in' k" := (bind m (λ x, k))
  (at level 10, x name, m at level 100, k at level 200) : bus_scope.
Notation "m '>>' k" := (bind m (λ _, k))
  (at level 100, k at level 200, right associativity) : bus_scope.
Open Scope bus_scope.

Definition set_observables (f : gmap string Subject → gmap string Subject)
    (st : CoreEvents) : CoreEvents :=
  MkCoreEvents (f (observables st)) (uniqueEvents st) (objects st)
               (next_subscription st) (calls st) (reported st).
Definition set_uniqueEvents (f : gmap string UniqueEvent → gmap string UniqueEvent)
    (st : CoreEvents) : CoreEvents :=
  MkCoreEvents (observables st) (f (uniqueEvents st)) (objects st)
               (next_subscription st) (calls st) (reported st).
Definition set_objects (f : heap → heap) (st : CoreEvents) : CoreEvents :=
  MkCoreEvents (observables st) (uniqueEvents st) (f (objects st))
               (next_subscription st) (calls st) (reported st).
Definition set_next_subscription (f : nat → nat) (st : CoreEvents) : CoreEvents :=
  MkCoreEvents (observables st) (uniqueEvents st) (objects st)
               (f (next_subscription st)) (calls st) (reported st).
Definition set_calls (f : list call → list call) (st : CoreEvents) : CoreEvents :=
  MkCoreEvents (observables st) (uniqueEvents st) (objects st)
               (next_subscription st) (f (calls st)) (reported st).
Definition set_reported (f : list exn → list exn) (st : CoreEvents) : CoreEvents :=
  MkCoreEvents (observables st) (uniqueEvents st) (objects st)
               (next_subscription st) (calls st) (f (reported st)).

(** *** JavaScript steps used by the bus *)

(** A fresh object, at the end of the heap. *)
Definition alloc (o : object) : M nat :=
  λ st, (Returned (length (objects st)), set_objects (λ h, h ++ [o]) st).

(** An object literal. *)
Definition new_object (o : object) : M value :=
  let! l := alloc o in
  ret (VRef l).

(** [data || {}]. *)
Definition or_empty_object (v : value) : M value :=
  if truthy v then ret v else new_object (Object None [] Extensible).

(** ToObject: a primitive is wrapped in a fresh object. *)
Definition ToObject (v : value) : M nat :=
  match v with
  | VUndefined | VNull => throw TypeError
  | VPrim _ => alloc (Object None [] Extensible)
  | VRef l => ret l
  end.

(** [Object.assign(target, { siteId })]: the assignment [target.siteId =
    siteId], which throws when it does not go through. *)
Definition Object_assign (target : value) (siteId : string) : M value :=
  let! l := ToObject target in
  let! o := gets (λ st, objects st !! l) in
  match o with
  | Some o =>
      if can_set_siteId o
      then modify (set_objects (write_siteId l siteId)) >> ret (VRef l)
      else throw TypeError
  | None => ret (VRef l)
  end.

(** [value.siteId]: reading a property of [undefined] or [null] throws. *)
Definition get_siteId (v : value) : M (option string) :=
  match v with
  | VUndefined | VNull => throw TypeError
  | _ => gets (λ st, own_siteId (objects st) v)
  end.

(** [callBack(value)], recorded. *)
Definition invoke (via : option nat) (callBack : callback) (v : value) : M unit :=
  modify (set_calls (λ c, c ++ [Call via (cb_id callBack) v])) >>
  if cb_throws callBack then throw (CallbackThrew (cb_id callBack)) else ret tt.

(** *** rxjs *)

(** [this.observables[eventName].subscribe(fn)] where [fn] is the arrow
    function of [on]; what [Object.prototype] lends has no [subscribe]. *)
Definition subscribe (eventName : string) (callBack : callback)
    (siteId : option string) : M nat :=
  let! s := gets (λ st, get (observables st) eventName) in
  match s with
  | Own _ =>
      let! id := gets next_subscription in
      modify (set_next_subscription S) >>
      modify (set_observables
        (alter (λ s, MkSubject (observers s ++ [MkSubscriber id callBack siteId]))
               eventName)) >>
      ret id
  | Inherited | Undefined => throw TypeError
  end.

(** [subscription.unsubscribe()]. *)
Definition unsubscribe (eventName : string) (id : nat) : M unit :=
  modify (set_observables
    (alter (λ s, MkSubject (filter (λ o, sub_id o ≠ id) (observers s))) eventName)).

(** The arrow function of [on] (events.ts, lines 112-116):
    [if (!siteId || value.siteId == siteId) callBack(value)]. *)
Definition observer_next (o : Subscriber) (v : value) : M unit :=
  if negb (truthy_str (sub_siteId o)) then invoke (Some (sub_id o)) (sub_callBack o) v
  else
    let! s := get_siteId v in
    if loose_eq_str s (default "" (sub_siteId o))
    then invoke (Some (sub_id o)) (sub_callBack o) v
    else ret tt.

(** rxjs [hostReportError]: the error is thrown again from a timer, after the
    running call has returned; the caller of the bus does not see it. *)
Definition hostReportError (err : exn) : M unit :=
  modify (set_reported (λ r, r ++ [err])).

(** The subscriber rxjs puts around the arrow function: what the function
    throws is caught, the subscription ends and the error is reported. *)
Definition subscriber_next (eventName : string) (o : Subscriber) (v : value) : M unit :=
  try_catch (observer_next o v)
            (λ err, unsubscribe eventName (sub_id o) >> hostReportError err).

(** [Subject.next] over a copy of the observers of the subject, in
    subscription order. *)
Fixpoint deliver (eventName : string) (os : list Subscriber) (v : value) : M unit :=
  match os with
  | [] => ret tt
  | o :: os' => subscriber_next eventName o v >> deliver eventName os' v
  end.

(** [this.observables[eventName].next(value)]; what [Object.prototype] lends
    has no [next]. *)
Definition next (eventName : string) (v : value) : M unit :=
  let! s := gets (λ st, get (observables st) eventName) in
  match s with
  | Own s => deliver eventName (observers s) v
  | Inherited | Undefined => throw TypeError
  end.

(** *** CoreEvents *)

(** What [on] and [onMultiple] return; [off] below is its [off] method. *)
#[warnings="-register-all"] Inductive CoreEventObserver :=
  | FakeObserver
  | SubjectObserver (eventName : string) (subscription : nat)
  | MultipleObserver (observers : list CoreEventObserver).

(** [this.uniqueEvents[eventName]] is truthy for a record and for what
    [Object.prototype] lends; the [data] of the latter is [undefined]. *)
Definition on (eventName : string) (callBack : callback) (siteId : option string)
    : M CoreEventObserver :=
  let! u := gets (λ st, get (uniqueEvents st) eventName) in
  match u with
  | Own u =>
      invoke None callBack (data u) >>
      ret FakeObserver
  | Inherited =>
      invoke None callBack VUndefined >>
      ret FakeObserver
  | Undefined =>
      let! s := gets (λ st, get (observables st) eventName) in
      (match s with
       | Undefined => modify (set_observables (insert eventName (MkSubject [])))
       | Own _ | Inherited => ret tt
       end) >>
      let! subscription := subscribe eventName callBack siteId in
      ret (SubjectObserver eventName subscription)
  end.

Fixpoint mapM {A B} (f : A → M B) (l : list A) : M (list B) :=
  match l with
  | [] => ret []
  | x :: l' =>
      let! y := f x in
      let! ys := mapM f l' in
      ret (y :: ys)
  end.

Definition onMultiple (eventNames : list string) (callBack : callback)
    (siteId : option string) : M CoreEventObserver :=
  let! observers := mapM (λ name, on name callBack siteId) eventNames in
  ret (MultipleObserver observers).

Fixpoint off (o : CoreEventObserver) : M unit :=
  match o with
  | FakeObserver => ret tt
  | SubjectObserver eventName subscription => unsubscribe eventName subscription
  | MultipleObserver observers =>
      (fix forEach (l : list CoreEventObserver) : M unit :=
         match l with
         | [] => ret tt
         | observer :: l' => off observer >> forEach l'
         end) observers
  end.

(** [if (siteId) { Object.assign(data || {}, { siteId }); }], the statement
    that [trigger] and [triggerUnique] have in common. *)
Definition merge_siteId (data : value) (siteId : option string) : M unit :=
  if truthy_str siteId then
    let! target := or_empty_object data in
    Object_assign target (default "" siteId) >> ret tt
  else ret tt.

Definition trigger (eventName : string) (data : value) (siteId : option string)
    : M unit :=
  let! s := gets (λ st, get (observables st) eventName) in
  match s with
  | Own _ | Inherited =>
      merge_siteId data siteId >>
      next eventName data
  | Undefined => ret tt
  end.

Definition triggerUnique (eventName : string) (data : value) (siteId : option string)
    : M unit :=
  let! u := gets (λ st, get (uniqueEvents st) eventName) in
  match u with
  | Own _ | Inherited => ret tt
  | Undefined =>
      merge_siteId data siteId >>
      modify (set_uniqueEvents (insert eventName (MkUniqueEvent data))) >>
      let! s := gets (λ st, get (observables st) eventName) in
      match s with
      | Own _ | Inherited => next eventName data
      | Undefined => ret tt
      end
  end.

(** *** Programs over the bus *)

(** What an application does with the bus and with the objects it passes as
    payloads.  An application that catches an exception goes on with the state
    the call left. *)
Inductive op :=
  | OpOn (eventName : string) (callBack : callback) (siteId : option string)
  | OpOnMultiple (eventNames : list string) (callBack : callback) (siteId : option string)
  | OpOff (observer : CoreEventObserver)
  | OpTrigger (eventName : string) (data : value) (siteId : option string)
  | OpTriggerUnique (eventName : string) (data : value) (siteId : option string)
  | OpNewObject (o : object)
  | OpSetObject (l : nat) (o : object).

Definition run_op (o : op) (st : CoreEvents) : CoreEvents :=
  match o with
  | OpOn e cb s => snd (on e cb s st)
  | OpOnMultiple es cb s => snd (onMultiple es cb s st)
  | OpOff h => snd (off h st)
  | OpTrigger e d s => snd (trigger e d s st)
  | OpTriggerUnique e d s => snd (triggerUnique e d s st)
  | OpNewObject o => snd (new_object o st)
  | OpSetObject l o => set_objects (λ h, <[l := o]> h) st
  end.

Definition run_ops (l : list op) (st : CoreEvents) : CoreEvents :=
  foldl (λ st o, run_op o st) st l.

(** The states the bus can be in: [initial] and whatever a program makes of it. *)
Inductive reachable : CoreEvents → Prop :=
  | reachable_initial : reachable initial
  | reachable_step st o : reachable st → reachable (run_op o st).

(** *** Vocabulary of the statements *)

(** The observers registered on a channel, in the order of the subject. *)
Definition observers_of (st : CoreEvents) (eventName : string) : list Subscriber :=
  default [] (observers <$> observables st !! eventName).

(** The calls made since an earlier state. *)
Definition calls_since (st st' : CoreEvents) : list call :=
  drop (length (calls st)) (calls st').

(** How many times a subscription (or, for [None], the replay) made a call. *)
Definition times_called (via : option nat) (cs : list call) : nat :=
  length (filter (λ c, call_via c = via) cs).

Definition nullish (v : value) : bool :=
  match v with
  | VUndefined | VNull => true
  | _ => false
  end.

(** The call a subscription makes when it hands [v] to its callback. *)
Definition call_of (v : value) (o : Subscriber) : call :=
  Call (Some (sub_id o)) (cb_id (sub_callBack o)) v.

(** The filter of a subscription, read off the test of its arrow function. *)
Definition accepts (h : heap) (o : Subscriber) (v : value) : bool :=
  negb (truthy_str (sub_siteId o))
  || loose_eq_str (own_siteId h v) (default "" (sub_siteId o)).

(** The arrow function dereferences [value] only when the subscription has a
    (truthy) site. *)
Definition faults (o : Subscriber) (v : value) : bool :=
  truthy_str (sub_siteId o) && nullish v.

(** What an observer throws when it is handed [v]: a [TypeError] of its arrow
    function, or what its callback throws. *)
Definition failure (h : heap) (v : value) (o : Subscriber) : option exn :=
  if faults o v then Some TypeError
  else if accepts h o v && cb_throws (sub_callBack o)
       then Some (CallbackThrew (cb_id (sub_callBack o)))
       else None.

(** A subject without the subscriptions [ids]. *)
Definition without (ids : list nat) (s : Subject) : Subject :=
  MkSubject (filter (λ o, sub_id o ∉ ids) (observers s)).

(** The state after [deliver]: the accepting observers were called, in
    order; those that threw are subscribed no more, and what they threw was
    reported. *)
Definition delivered (e : string) (os : list Subscriber) (v : value)
    (st : CoreEvents) : CoreEvents :=
  MkCoreEvents
    (alter (without (sub_id <$> filter (λ o, is_Some (failure (objects st) v o)) os))
           e (observables st))
    (uniqueEvents st) (objects st) (next_subscription st)
    (calls st ++ (call_of v <$> filter (λ o, accepts (objects st) o v = true) os))
    (reported st ++ omap (failure (objects st) v) os).

(** Whether [Object.assign(data || {}, { siteId })] goes through: it does not
    when the data is an object that cannot take the property. *)
Definition assignable (h : heap) (data : value) : bool :=
  match data with
  | VRef l => match h !! l with Some o => can_set_siteId o | None => true end
  | _ => true
  end.

(** Whether [if (siteId) { Object.assign(data || {}, { siteId }); }] goes
    through. *)
Definition takes_site (h : heap) (data : value) (siteId : option string) : bool :=
  negb (truthy_str siteId) || assignable h data.

(** The heap after [merge_siteId]. *)
Definition merged (data : value) (siteId : option string) (h : heap) : heap :=
  if truthy_str siteId then
    match data with
    | VRef l => write_siteId l (default "" siteId) h
    | _ => h ++ [Object (Some (default "" siteId)) [] Extensible]
    end
  else h.

(** Subscription identities are handed out in increasing order, so an
    observer registered earlier has the smaller one. *)
Definition registered_before (a b : Subscriber) : Prop := sub_id a < sub_id b.

(** Every subject lists its observers in the order they registered, and all
    of them registered in the past. *)
Definition ordered (st : CoreEvents) : Prop :=
  ∀ e, StronglySorted registered_before (observers_of st e)
       ∧ Forall (λ o, sub_id o < next_subscription st) (observers_of st e).

Definition record_calls (cs : list call) (st : CoreEvents) : CoreEvents :=
  set_calls (λ c, c ++ cs) st.

(** The state after the registering branch of [on]. *)
Definition subscribed (e : string) (cb : callback) (s : option string)
    (st : CoreEvents) : CoreEvents :=
  set_next_subscription S
    (set_observables
       (insert e (MkSubject (observers_of st e ++ [MkSubscriber (next_subscription st) cb s])))
       st).

(** The state after [triggerUnique] has merged the site and stored the record. *)
Definition stored (e : string) (d : value) (s : option string)
    (st : CoreEvents) : CoreEvents :=
  set_uniqueEvents (insert e (MkUniqueEvent d)) (set_objects (merged d s) st).

(** What [on] hands to its callback at once, when it replays: the data of the
    record, or [undefined] for what [Object.prototype] lends. *)
Definition replayed (st : CoreEvents) (e : string) : option value :=
  match get (uniqueEvents st) e with
  | Own u => Some (data u)
  | Inherited => Some VUndefined
  | Undefined => None
  end.

(** *** Observers and what they stand for *)

(** Induction over observers, through the list of [MultipleObserver]. *)
Fixpoint CoreEventObserver_nested_ind (P : CoreEventObserver → Prop)
    (Hfake : P FakeObserver)
    (Hsubject : ∀ e id, P (SubjectObserver e id))
    (Hmultiple : ∀ l, Forall P l → P (MultipleObserver l))
    (o : CoreEventObserver) : P o :=
  match o with
  | FakeObserver => Hfake
  | SubjectObserver e id => Hsubject e id
  | MultipleObserver l =>
      Hmultiple l
        ((fix all (l : list CoreEventObserver) : Forall P l :=
            match l with
            | [] => @List.Forall_nil _ P
            | x :: l' =>
                @List.Forall_cons _ P x l'
                  (CoreEventObserver_nested_ind P Hfake Hsubject Hmultiple x) (all l')
            end) l)
  end.

(** The [forEach] of a [MultipleObserver]. *)
Definition off_all (l : list CoreEventObserver) : M unit :=
  foldr (λ o k, off o >> k) (ret tt) l.

(** The subscriptions an observer stands for. *)
Fixpoint subscriptions (o : CoreEventObserver) : list (string * nat) :=
  match o with
  | FakeObserver => []
  | SubjectObserver e id => [(e, id)]
  | MultipleObserver l => flat_map subscriptions l
  end.

Definition pruned (subs : list (string * nat)) (e : string) (s : Subject) : Subject :=
  MkSubject (filter (λ o, (e, sub_id o) ∉ subs) (observers s)).

(** The specification's reading of [onMultiple]: one independent call of
    [on] per name, in the order of the list, each on the state the previous
    one left; the first exception ends the sequence. *)
Fixpoint on_independently (names : list string) (cb : callback) (s : option string)
    (st : CoreEvents) : result (list CoreEventObserver) * CoreEvents :=
  match names with
  | [] => (Returned [], st)
  | name :: names' =>
      match on name cb s st with
      | (Returned h, st1) =>
          match on_independently names' cb s st1 with
          | (Returned hs, st2) => (Returned (h :: hs), st2)
          | (Thrown err, st2) => (Thrown err, st2)
          end
      | (Thrown err, st1) => (Thrown err, st1)
      end
  end.

(** Releasing observers one after the other. *)
Definition off_each (hs : list CoreEventObserver) (st : CoreEvents) : CoreEvents :=
  foldl (λ st h, (off h st).2) st hs.

(** C2, as the specification states it: after a first [triggerUnique] with
    [v] and a second one, a subscriber that registers is called exactly once,
    at once, with [v]. *)
Definition first_payload_replayed (e : string) (v v2 : value)
    (s s2 : option string) (st : CoreEvents) : Prop :=
  let st1 := (triggerUnique e v s st).2 in
  let st2 := (triggerUnique e v2 s2 st1).2 in
  ∀ cb scope, calls_since st2 (on e cb scope st2).2 = [Call None (cb_id cb) v].

(** C3, as the specification states it: every observer registered before the
    first unique trigger, whatever its site, is called exactly once, and every
    later subscriber is called exactly once, at once, with the payload. *)
Definition every_subscriber_observes_once (e : string) (v : value)
    (s : option string) (st : CoreEvents) : Prop :=
  let st' := (triggerUnique e v s st).2 in
  (∀ o, o ∈ observers_of st e →
     times_called (Some (sub_id o)) (calls_since st st') = 1)
  ∧ (∀ later cb scope,
       calls_since (run_ops later st') (on e cb scope (run_ops later st')).2
       = [Call None (cb_id cb) v]).

(** C5, as the specification states it: [trigger] leaves the records alone,
    and on a channel without subscribers it completes without an error and
    calls nobody. *)
Definition trigger_without_subscribers (e : string) (d : value)
    (s : option string) (st : CoreEvents) : Prop :=
  uniqueEvents (trigger e d s st).2 = uniqueEvents st
  ∧ (observers_of st e = [] →
       (trigger e d s st).1 = Returned tt
       ∧ calls (trigger e d s st).2 = calls st).

(** C8, as the specification states it: after [onMultiple([A, B], cb)],
    [trigger(A, x)] then [trigger(B, y)] call [cb] twice, once with [x] and
    once with [y]. *)
Definition called_once_for_each (A B : string) (cb : callback) (x y : value)
    (st : CoreEvents) : Prop :=
  ∃ h st1,
    onMultiple [A; B] cb None st = (Returned h, st1)
    ∧ let st2 := (trigger A x None st1).2 in
      let st3 := (trigger B y None st2).2 in
      call_value <$> calls_since st1 st3 = [x; y].

(** One object on the heap and one observer of [site_added] for [site1]. *)
Definition one_site_observer : CoreEvents :=
  run_ops [OpNewObject (Object None [] Extensible);
           OpOn "site_added" (Callback 1 false) (Some "site1")] initial.

(** A frozen payload on the heap, and a subject on [login] that has lost its
    only observer. *)
Definition frozen_payload : CoreEvents :=
  run_ops [OpNewObject (Object None [("courseId", VPrim (PNum 5))] Frozen);
           OpOn "login" (Callback 1 false) None;
           OpOff (SubjectObserver "login" 0)] initial.

(** The channel names the class declares (events.ts, lines 36-70). *)
Definition event_names : list string :=
  ["session_expired"; "password_change_forced"; "user_not_fully_setup";
   "site_policy_not_agreed"; "login"; "logout"; "language_changed";
   "notification_sound_changed"; "site_added"; "site_updated"; "site_deleted";
   "completion_module_viewed"; "user_deleted"; "package_status_changed";
   "course_status_changed"; "section_status_changed"; "component_file_action";
   "site_plugins_loaded"; "site_plugins_course_restrict_updated";
   "login_site_checked"; "login_site_unchecked"; "inappbrowser_load_start";
   "inappbrowser_exit"; "app_launched_url"; "file_shared"; "keyboard_change";
   "core_loading_changed"; "orientation_change"; "send_on_enter_changed";
   "select_course_tab"; "ws_cache_invalidated"; "site_storage_deleted";
   "form_action"; "activity_data_sent"; "device_registered_in_moodle"].

(** The subscription [n] was handed out and is in no subject any more. *)
Definition released (n : nat) (st : CoreEvents) : Prop :=
  n < next_subscription st
  ∧ ∀ e, Forall (λ o, sub_id o ≠ n) (observers_of st e).

(** A subscription belongs to one channel only. *)
Definition channels_apart (st : CoreEvents) : Prop :=
  ∀ e e' o o', o ∈ observers_of st e → o' ∈ observers_of st e' →
    sub_id o = sub_id o' → e = e'.

(** No property of [Object.prototype] is shadowed by an own property of
    [observables] or of [uniqueEvents]. *)
Definition unshadowed (st : CoreEvents) : Prop :=
  ∀ e, inherited e = true →
    observables st !! e = None ∧ uniqueEvents st !! e = None.

(** * The app routing table *)

Module AppRouting.

(** A guard is a class; [CoreRedirectGuard] is the one [buildAppRoutes] adds. *)
Inductive guard :=
  | CoreRedirectGuard
  | OtherGuard (name : string).

(** A route object of Angular.  [canLoad] and [canActivate] refer to an array
    of guards when they are set; [None] is [undefined] or [null]. *)
Record Route := MkRoute {
  path : option string;
  pathMatch : option string;
  loadChildren : option string;
  children : list nat;
  canLoad : option nat;
  canActivate : option nat
}.

(** The heap: route objects and arrays of guards, both known by their index. *)
Record store := MkStore {
  routes : list Route;
  arrays : list (list guard)
}.

Inductive guard_field := CanLoad | CanActivate.

Definition get_field (f : guard_field) (route : Route) : option nat :=
  match f with
  | CanLoad => canLoad route
  | CanActivate => canActivate route
  end.

Definition set_field (f : guard_field) (a : nat) (route : Route) : Route :=
  match f with
  | CanLoad =>
      MkRoute (path route) (pathMatch route) (loadChildren route) (children route)
              (Some a) (canActivate route)
  | CanActivate =>
      MkRoute (path route) (pathMatch route) (loadChildren route) (children route)
              (canLoad route) (Some a)
  end.

(** [route.f], for the route at [r]. *)
Definition read (f : guard_field) (r : nat) (h : store) : option nat :=
  routes h !! r ≫= get_field f.

(** [route.f = a]. *)
Definition write (f : guard_field) (r : nat) (a : nat) (h : store) : store :=
  MkStore (alter (set_field f a) r (routes h)) (arrays h).

(** [route.f = route.f ?? []]: an absent list is created, empty. *)
Definition or_new_array (f : guard_field) (r : nat) (h : store) : store :=
  match read f r h with
  | Some a => write f r a h
  | None => write f r (length (arrays h)) (MkStore (routes h) (arrays h ++ [[]]))
  end.

(** [route.f.push(g)]. *)
Definition push (f : guard_field) (r : nat) (g : guard) (h : store) : store :=
  match read f r h with
  | Some a => MkStore (routes h) (alter (λ l, l ++ [g]) a (arrays h))
  | None => h
  end.

(** The function mapped over the routes (app-routing.module.ts, lines 40-47). *)
Definition wrap (route : nat) (h : store) : store :=
  let h := or_new_array CanLoad route h in
  let h := or_new_array CanActivate route h in
  let h := push CanLoad route CoreRedirectGuard h in
  let h := push CanActivate route CoreRedirectGuard h in
  h.

(** Modelled from the spec: [CoreArray.flatten] (singletons/array.ts is not
    among the sources), the concatenation of the contributed arrays. *)
Definition flatten (contributed : list (list nat)) : list nat := concat contributed.

(** [injector.get(APP_ROUTES, [])] is [provided], or [[]] when the token has
    no provider.  The result is the array of the same route objects, and the
    store after they were wrapped one by one. *)
Definition buildAppRoutes (provided : option (list (list nat))) (h : store)
    : list nat * store :=
  let appRoutes := flatten (default [] provided) in
  (appRoutes, foldl (λ h route, wrap route h) h appRoutes).

(** *** Vocabulary of the statements *)

(** The guards of a route, an absent list counting as empty. *)
Definition guards_of (h : store) (f : guard_field) (r : nat) : list guard :=
  match read f r h with
  | Some a => default [] (arrays h !! a)
  | None => []
  end.

(** What [buildAppRoutes] has no business with. *)
Definition other_fields (route : Route)
    : option string * option string * option string * list nat :=
  (path route, pathMatch route, loadChildren route, children route).

(** The arrays a route refers to. *)
Definition refs (h : store) (r : nat) : list nat :=
  omap (λ f, read f r h) [CanLoad; CanActivate].

(** Every guard list of a route is an array of the store. *)
Definition well_formed (h : store) : Prop :=
  ∀ r f a, read f r h = Some a → a < length (arrays h).

(** No route object is contributed twice and no array of guards is used by
    two of the routes or by both lists of one. *)
Definition unshared (h : store) (l : list nat) : Prop :=
  NoDup l ∧ NoDup (l ≫= refs h).

#[global] Instance guard_field_eq_dec : EqDecision guard_field.
Proof. solve_decision. Defined.

(** The routes wrapped one after the other. *)
Definition wrap_all (l : list nat) (h : store) : store :=
  foldl (λ h route, wrap route h) h l.

(** C10, as the specification states it: for whatever is contributed, the
    table is the flattened contribution, every route of it has the guard
    appended to both its lists, and nothing else of a route is changed. *)
Definition guard_appended (provided : option (list (list nat))) (h : store) : Prop :=
  let out := (buildAppRoutes provided h).1 in
  let h' := (buildAppRoutes provided h).2 in
  out = flatten (default [] provided)
  ∧ (∀ r f, r ∈ out → guards_of h' f r = guards_of h f r ++ [CoreRedirectGuard])
  ∧ (∀ r, other_fields <$> routes h' !! r = other_fields <$> routes h !! r).

(** Two routes whose [canActivate] is one and the same array [[AuthGuard]]. *)
Definition shared_guards : store :=
  MkStore [MkRoute (Some "courses") None None [] None (Some 0);
           MkRoute (Some "settings") None None [] None (Some 0)]
          [[OtherGuard "AuthGuard"]].

(** A route without guards and a route with its own two lists. *)
Definition own_guards : store :=
  MkStore [MkRoute (Some "login") None (Some "LoginModule") [] None None;
           MkRoute (Some "main") (Some "full") None [] (Some 0) (Some 1)]
          [[OtherGuard "AuthGuard"]; []].

End AppRouting.

Module AppRoutingUses.
Import AppRouting.

(** How many of the two lists of the route [r] are the array [a]. *)
Definition uses_by (h : store) (a : nat) (r : nat) : nat :=
  (if decide (read CanLoad r h = Some a) then 1 else 0)
  + (if decide (read CanActivate r h = Some a) then 1 else 0).

(** How many times the routes of a table use the array [a], a route counting
    as often as it occurs. *)
Definition uses (h : store) (table : list nat) (a : nat) : nat :=
  sum_list (uses_by h a <$> table).

End AppRoutingUses.

(** * Conditional routes and module routes *)

Module UrlMatching.

(** A segment of the URL: its path and its matrix parameters. *)
Record UrlSegment := MkUrlSegment {
  segment_path : string;
  parameters : list (string * string)
}.

(** Of the segment group the matcher asks only [hasChildren()]. *)
Record UrlSegmentGroup := MkUrlSegmentGroup {
  hasChildren : bool
}.

(** The object literal [posParams]: its own properties, and the segment
    that an assignment to [__proto__] has made its prototype in the place of
    [Object.prototype], if any.  What an object inherits from a segment is
    Angular's and is not modelled. *)
Record PosParams := MkPosParams {
  own_params : gmap string UrlSegment;
  prototype : option UrlSegment
}.

(** [{}]. *)
#[global] Instance PosParams_empty : Empty PosParams := MkPosParams ∅ None.

(** [posParams[name] = segment].  For [__proto__] the assignment runs the
    setter of [Object.prototype]: the segment becomes the prototype of the
    object, and the object gets no property of that name. *)
Definition set_param (name : string) (segment : UrlSegment) (p : PosParams) : PosParams :=
  if bool_decide (name = "__proto__")
  then MkPosParams (own_params p) (Some segment)
  else MkPosParams (<[name := segment]> (own_params p)) (prototype p).

(** [UrlMatchResult]; [{ consumed: [] }] has no [posParams]. *)
Record UrlMatchResult := MkUrlMatchResult {
  consumed : list UrlSegment;
  posParams : option PosParams
}.

(** [path.split('/')]: the pieces between the slashes, at least one. *)
Fixpoint split_slash (path : string) : list string :=
  match path with
  | EmptyString => [EmptyString]
  | String c rest =>
      if Ascii.eqb c "/"%char then EmptyString :: split_slash rest
      else match split_slash rest with
           | part :: parts => String c part :: parts
           | [] => [String c EmptyString]
           end
  end.

(** [part.startsWith(':')]. *)
Definition isParameter (part : string) : bool :=
  match part with
  | String c _ => Ascii.eqb c ":"%char
  | EmptyString => false
  end.

(** [part.substring(1)]. *)
Definition substring1 (part : string) : string :=
  match part with
  | String _ rest => rest
  | EmptyString => EmptyString
  end.

(** The loop over the parts (app-routing.module.ts, lines 92-103), with the
    segments from [index] on.  It runs only when there are at least as many
    segments as parts, so [segments[index]] exists. *)
Fixpoint match_parts (parts : list string) (segments : list UrlSegment)
    (posParams : PosParams) : option PosParams :=
  match parts, segments with
  | [], _ => Some posParams
  | part :: parts', segment :: segments' =>
      if isParameter part
      then match_parts parts' segments' (set_param (substring1 part) segment posParams)
      else if bool_decide (part ≠ segment_path segment) then None
      else match_parts parts' segments' posParams
  | _ :: _, [] => None
  end.

Section Matchers.

(** What the condition [() => boolean] looks at when the router calls it. *)
Context {App : Type}.

(** A [UrlMatcher].  The route it is handed is the configuration of the route
    without its own matcher. *)
Definition UrlMatcher : Type :=
  App → list UrlSegment → UrlSegmentGroup → AppRouting.Route → result (option UrlMatchResult).

(** [string | UrlMatcher], and [undefined] for [matcher || path!] of a route
    that has neither. *)
Inductive PathOrMatcher :=
  | IsPath (path : string)
  | IsMatcher (matcher : UrlMatcher)
  | NoPathOrMatcher.

Definition buildConditionalUrlMatcher (pathOrMatcher : PathOrMatcher)
    (condition : App → bool) : UrlMatcher :=
  λ app segments segmentGroup route,
    if negb (condition app) then Returned None
    else match pathOrMatcher with
    | IsMatcher matcher => matcher app segments segmentGroup route
    | NoPathOrMatcher => Thrown TypeError
    | IsPath path =>
        let parts := split_slash path in
        let isFullMatch := bool_decide (AppRouting.pathMatch route = Some "full") in
        if bool_decide (path = "") then
          if negb isFullMatch || bool_decide (length segments = 0)
          then Returned (Some (MkUrlMatchResult [] None))
          else Returned None
        else if bool_decide (length segments < length parts) then Returned None
        else if isFullMatch
                && (hasChildren segmentGroup
                    || bool_decide (length parts < length segments))
        then Returned None
        else match match_parts parts segments ∅ with
             | None => Returned None
             | Some posParams =>
                 Returned (Some (MkUrlMatchResult (take (length parts) segments)
                                                  (Some posParams)))
             end
    end.

(** A route with its matcher; the other properties are those of
    [AppRouting.Route]. *)
Record RouteConfig := MkRouteConfig {
  matcher : option UrlMatcher;
  properties : AppRouting.Route
}.

(** [matcher || path!]. *)
Definition matcher_or_path (route : RouteConfig) : PathOrMatcher :=
  match matcher route with
  | Some m => IsMatcher m
  | None =>
      match AppRouting.path (properties route) with
      | Some p => IsPath p
      | None => NoPathOrMatcher
      end
  end.

(** [const { path, matcher, ...newRoute } = route]. *)
Definition without_path (route : AppRouting.Route) : AppRouting.Route :=
  AppRouting.MkRoute None (AppRouting.pathMatch route) (AppRouting.loadChildren route)
    (AppRouting.children route) (AppRouting.canLoad route) (AppRouting.canActivate route).

Definition conditionalRoutes (routes : list RouteConfig) (condition : App → bool)
    : list RouteConfig :=
  map (λ route,
         MkRouteConfig
           (Some (buildConditionalUrlMatcher (matcher_or_path route) condition))
           (without_path (properties route)))
      routes.

End Matchers.

Arguments UrlMatcher : clear implicits.
Arguments PathOrMatcher : clear implicits.
Arguments RouteConfig : clear implicits.

(** *** Vocabulary of the statements *)

(** A part of the configured path agrees with a segment of the URL. *)
Definition part_fits (part : string) (segment : UrlSegment) : Prop :=
  isParameter part = true ∨ part = segment_path segment.

(** The configured path agrees with the URL: no more parts than segments, the
    parts agree with the first segments, and for a full match nothing is left
    over, neither segments nor children. *)
Definition path_fits (parts : list string) (segments : list UrlSegment)
    (full : bool) (group : UrlSegmentGroup) : Prop :=
  length parts ≤ length segments
  ∧ Forall2 part_fits parts (take (length parts) segments)
  ∧ (full = true → hasChildren group = false ∧ length parts = length segments).

(** The segments that stand under the parts [:name] of the configured path,
    in the order of the path. *)
Definition named_segments (name : string) (parts : list string)
    (segments : list UrlSegment) : list UrlSegment :=
  omap (λ ps, if decide (ps.1 = String ":" name) then Some ps.2 else None)
       (zip parts segments).

(** Two configured routes that the router cannot tell apart: the same
    properties, and matchers that answer alike. *)
Definition route_agrees {App : Type} (r1 r2 : RouteConfig App) : Prop :=
  properties r1 = properties r2
  ∧ match matcher r1, matcher r2 with
    | Some m1, Some m2 => ∀ app segments group route,
        m1 app segments group route = m2 app segments group route
    | None, None => True
    | _, _ => False
    end.

End UrlMatching.

Module ModuleRoutes.

(** [ModuleRoutes], over references to route objects. *)
Record ModuleRoutes := MkModuleRoutes {
  children : list nat;
  siblings : list nat
}.

(** [ModuleRoutesConfig = Routes | Partial<ModuleRoutes>]. *)
Inductive ModuleRoutesConfig :=
  | RoutesArray (routes : list nat)
  | PartialModuleRoutes (children siblings : option (list nat)).

(** The function mapped over the configurations (lines 141-153). *)
Definition to_module_routes (config : ModuleRoutesConfig) : ModuleRoutes :=
  match config with
  | RoutesArray routes => MkModuleRoutes [] routes
  | PartialModuleRoutes c s => MkModuleRoutes (default [] c) (default [] s)
  end.

(** [injector.get(token, [])] is [provided], or [[]] without a provider. *)
Definition resolveModuleRoutes (provided : option (list ModuleRoutesConfig))
    : ModuleRoutes :=
  let configs := default [] provided in
  let routes := map to_module_routes configs in
  MkModuleRoutes (AppRouting.flatten (map children routes))
                 (AppRouting.flatten (map siblings routes)).

(** All the routes a configuration contributes. *)
Definition contributed (config : ModuleRoutesConfig) : list nat :=
  match config with
  | RoutesArray routes => routes
  | PartialModuleRoutes c s => default [] c ++ default [] s
  end.

End ModuleRoutes.
(** * Properties of the event bus *)

(** ** Equations of the embedding *)

Ltac run := unfold bind, ret, gets, modify, throw; simpl.

Section Equations.

Lemma CoreEvents_eq st st' :
  observables st = observables st' → uniqueEvents st = uniqueEvents st' →
  objects st = objects st' → next_subscription st = next_subscription st' →
  calls st = calls st' → reported st = reported st' → st = st'.
Proof. destruct st, st'. simpl. by intros -> -> -> -> -> ->. Qed.

Lemma record_calls_nil st : record_calls [] st = st.
Proof. destruct st. unfold record_calls, set_calls. simpl. by rewrite app_nil_r. Qed.

Lemma record_calls_app cs1 cs2 st :
  record_calls cs2 (record_calls cs1 st) = record_calls (cs1 ++ cs2) st.
Proof. destruct st. unfold record_calls, set_calls. simpl. by rewrite app_assoc. Qed.

Lemma invoke_eq via cb v st :
  invoke via cb v st =
  (if cb_throws cb then Thrown (CallbackThrew (cb_id cb)) else Returned tt,
   record_calls [Call via (cb_id cb) v] st).
Proof. unfold invoke. run. by destruct (cb_throws cb). Qed.

(** *** Reading an object literal used as a map *)

Lemma get_Own {A} (m : gmap string A) e a : get m e = Own a ↔ m !! e = Some a.
Proof.
  unfold get. destruct (m !! e) as [a'|].
  - split; by intros [= ->].
  - by destruct (inherited e).
Qed.

Lemma get_Inherited {A} (m : gmap string A) e :
  get m e = Inherited ↔ m !! e = None ∧ inherited e = true.
Proof.
  unfold get. destruct (m !! e) as [a'|].
  - split; [done|by intros [? _]].
  - destruct (inherited e); split; try done; by intros [_ ?].
Qed.

Lemma get_Undefined {A} (m : gmap string A) e :
  get m e = Undefined ↔ m !! e = None ∧ inherited e = false.
Proof.
  unfold get. destruct (m !! e) as [a'|].
  - split; [done|by intros [? _]].
  - destruct (inherited e); split; try done; by intros [_ ?].
Qed.

(** *** The arrow function and the delivery *)

Lemma faults_not_accepts h o v : faults o v = true → accepts h o v = false.
Proof.
  unfold faults, accepts. intros [Hs Hn]%andb_true_iff. rewrite Hs.
  by destruct v.
Qed.

Lemma observer_next_eq o v st :
  observer_next o v st =
  if faults o v then (Thrown TypeError, st)
  else if accepts (objects st) o v then
    (if cb_throws (sub_callBack o)
     then Thrown (CallbackThrew (cb_id (sub_callBack o))) else Returned tt,
     record_calls [call_of v o] st)
  else (Returned tt, st).
Proof.
  unfold observer_next, faults, accepts, call_of.
  destruct (truthy_str (sub_siteId o)); simpl.
  - destruct v; simpl; run; try done;
      match goal with
      | |- context [loose_eq_str ?a ?b] => destruct (loose_eq_str a b)
      end; try done; apply invoke_eq.
  - apply invoke_eq.
Qed.

Lemma alter_without_nil e (m : gmap string Subject) : alter (without []) e m = m.
Proof.
  apply map_eq. intros i. destruct (decide (e = i)) as [<-|Hne].
  - rewrite lookup_alter_eq. destruct (m !! e) as [[os]|]; simpl; [|done].
    unfold without. simpl. f_equal. f_equal.
    induction os as [|o os IH]; [done|].
    rewrite filter_cons_True by apply not_elem_of_nil. by f_equal.
  - by rewrite lookup_alter_ne.
Qed.

Lemma alter_without_app ids1 ids2 e (m : gmap string Subject) :
  alter (without ids2) e (alter (without ids1) e m) = alter (without (ids1 ++ ids2)) e m.
Proof.
  apply map_eq. intros i. destruct (decide (e = i)) as [<-|Hne].
  - rewrite !lookup_alter_eq. destruct (m !! e) as [[os]|]; simpl; [|done].
    unfold without. simpl. f_equal. f_equal.
    rewrite list_filter_filter. apply list_filter_iff.
    intros x. rewrite elem_of_app. tauto.
  - by rewrite !lookup_alter_ne.
Qed.

Lemma alter_unsubscribe e id (m : gmap string Subject) :
  alter (λ s, MkSubject (filter (λ o, sub_id o ≠ id) (observers s))) e m
  = alter (without [id]) e m.
Proof.
  apply map_eq. intros i. destruct (decide (e = i)) as [<-|Hne].
  - rewrite !lookup_alter_eq. destruct (m !! e) as [[os]|]; simpl; [|done].
    unfold without. simpl. f_equal. f_equal. apply list_filter_iff.
    intros x. by rewrite list_elem_of_singleton.
  - by rewrite !lookup_alter_ne.
Qed.

Lemma delivered_nil e v st : delivered e [] v st = st.
Proof.
  apply CoreEvents_eq; unfold delivered; simpl; try done.
  - apply alter_without_nil.
  - apply app_nil_r.
  - apply app_nil_r.
Qed.

Lemma delivered_cons e o os v st :
  delivered e (o :: os) v st = delivered e os v (delivered e [o] v st).
Proof.
  apply CoreEvents_eq; unfold delivered; simpl; try done.
  - rewrite alter_without_app. f_equal. f_equal.
    by rewrite <- fmap_app, <- filter_app.
  - rewrite <- app_assoc. f_equal. by rewrite <- fmap_app, <- filter_app.
  - rewrite <- app_assoc. f_equal. by destruct (failure (objects st) v o).
Qed.

Lemma filter_singleton {A} (P : A → Prop) `{∀ x, Decision (P x)} (x : A) :
  filter P [x] = if decide (P x) then [x] else [].
Proof. done. Qed.

Lemma delivered_one e o v st :
  delivered e [o] v st =
  MkCoreEvents
    (match failure (objects st) v o with
     | Some _ => alter (without [sub_id o]) e (observables st)
     | None => observables st
     end)
    (uniqueEvents st) (objects st) (next_subscription st)
    (calls st ++ if accepts (objects st) o v then [call_of v o] else [])
    (reported st ++ match failure (objects st) v o with Some err => [err] | None => [] end).
Proof.
  unfold delivered. rewrite !filter_singleton. f_equal.
  - destruct (failure (objects st) v o) as [err|].
    + by rewrite decide_True by by eexists.
    + rewrite decide_False by by intros [? [=]]. apply alter_without_nil.
  - f_equal. by destruct (accepts (objects st) o v).
Qed.

Lemma subscriber_next_eq e o v st :
  subscriber_next e o v st = (Returned tt, delivered e [o] v st).
Proof.
  unfold subscriber_next, try_catch. rewrite observer_next_eq, delivered_one.
  unfold unsubscribe, hostReportError, failure. run.
  destruct (faults o v) eqn:Hf.
  { rewrite (faults_not_accepts _ _ _ Hf). f_equal.
    apply CoreEvents_eq; simpl; try done.
    - apply alter_unsubscribe.
    - by rewrite app_nil_r. }
  destruct (accepts (objects st) o v) eqn:Ha; simpl.
  - destruct (cb_throws (sub_callBack o)) eqn:Hc; f_equal;
      apply CoreEvents_eq; simpl; try done.
    + apply alter_unsubscribe.
    + by rewrite app_nil_r.
  - f_equal. apply CoreEvents_eq; simpl; try done; by rewrite app_nil_r.
Qed.

(** A delivery returns, whatever the observers throw. *)
Lemma deliver_eq e os v st :
  deliver e os v st = (Returned tt, delivered e os v st).
Proof.
  revert st. induction os as [|o os IH]; intros st; simpl.
  - run. by rewrite delivered_nil.
  - unfold bind. rewrite subscriber_next_eq, IH. by rewrite <- delivered_cons.
Qed.

Lemma observers_of_delivered e os v st e' :
  observers_of (delivered e os v st) e' =
  if decide (e = e')
  then filter (λ o, sub_id o ∉ sub_id <$> filter (λ o, is_Some (failure (objects st) v o)) os)
              (observers_of st e')
  else observers_of st e'.
Proof.
  unfold observers_of, delivered. simpl. case_decide as Hd.
  - subst. rewrite lookup_alter_eq. by destruct (observables st !! e').
  - by rewrite lookup_alter_ne.
Qed.

(** *** The site written into the payload *)

Lemma write_siteId_fresh h s :
  write_siteId (length h) s (h ++ [Object None [] Extensible])
  = h ++ [Object (Some s) [] Extensible].
Proof.
  unfold write_siteId.
  rewrite lookup_app_r, Nat.sub_diag by lia. simpl.
  rewrite insert_app_r_alt, Nat.sub_diag by lia. done.
Qed.

Lemma Object_assign_fresh s st :
  Object_assign (VRef (length (objects st))) s
    (set_objects (λ h, h ++ [Object None [] Extensible]) st)
  = (Returned (VRef (length (objects st))),
     set_objects (λ h, h ++ [Object (Some s) [] Extensible]) st).
Proof.
  unfold Object_assign. run. rewrite lookup_app_r, Nat.sub_diag by lia. simpl.
  unfold set_objects. simpl. by rewrite write_siteId_fresh.
Qed.

Lemma assign_fresh s st :
  (let! l := alloc (Object None [] Extensible) in
   Object_assign (VRef l) s >> ret tt) st
  = (Returned tt, set_objects (λ h, h ++ [Object (Some s) [] Extensible]) st).
Proof.
  unfold bind at 1. unfold alloc. unfold bind. by rewrite Object_assign_fresh.
Qed.

Lemma merge_siteId_eq d s st :
  merge_siteId d s st =
  if takes_site (objects st) d s
  then (Returned tt, set_objects (merged d s) st)
  else (Thrown TypeError, st).
Proof.
  unfold merge_siteId, merged, takes_site. destruct (truthy_str s); simpl; [|by destruct st].
  pose proof (assign_fresh (default "" s) st) as Hfresh.
  unfold or_empty_object, new_object.
  destruct d as [| |p|l].
  - revert Hfresh. by run.
  - revert Hfresh. by run.
  - destruct (truthy (VPrim p)).
    + revert Hfresh. unfold Object_assign, ToObject. by run.
    + revert Hfresh. by run.
  - unfold Object_assign. run. unfold write_siteId.
    destruct (objects st !! l) as [o|] eqn:Hl.
    + destruct (can_set_siteId o); simpl; [|done].
      unfold set_objects. simpl. by rewrite Hl.
    + unfold set_objects. rewrite Hl. by destruct st.
Qed.

Lemma alter_Some_insert {A} (f : A → A) (m : gmap string A) e x :
  m !! e = Some x → alter f e m = <[e := f x]> m.
Proof.
  intros H. apply map_eq. intros i. destruct (decide (e = i)) as [->|Hne].
  - by rewrite lookup_alter_eq, H, lookup_insert_eq.
  - by rewrite lookup_alter_ne, lookup_insert_ne.
Qed.

(** *** The four operations *)

Lemma on_eq e cb s st :
  on e cb s st =
  match replayed st e with
  | Some v =>
      (if cb_throws cb then Thrown (CallbackThrew (cb_id cb)) else Returned FakeObserver,
       record_calls [Call None (cb_id cb) v] st)
  | None => (Returned (SubjectObserver e (next_subscription st)), subscribed e cb s st)
  end.
Proof.
  unfold on, replayed, bind at 1, gets at 1.
  destruct (get (uniqueEvents st) e) as [u| |] eqn:Hu.
  - unfold bind. rewrite invoke_eq. by destruct (cb_throws cb).
  - unfold bind. rewrite invoke_eq. by destruct (cb_throws cb).
  - apply get_Undefined in Hu as [_ Hni].
    unfold subscribed, observers_of, subscribe, get. rewrite Hni.
    destruct st as [ob un h n c r]. run.
    unfold set_observables, set_next_subscription. simpl.
    destruct (ob !! e) as [subj|] eqn:Hs; simpl.
    + rewrite Hs. simpl. by rewrite (alter_Some_insert _ _ _ _ Hs).
    + rewrite lookup_insert_eq. simpl. by rewrite alter_insert_eq.
Qed.

Lemma trigger_eq e d s st :
  trigger e d s st =
  match get (observables st) e with
  | Undefined => (Returned tt, st)
  | Own _ =>
      if takes_site (objects st) d s
      then (Returned tt, delivered e (observers_of st e) d (set_objects (merged d s) st))
      else (Thrown TypeError, st)
  | Inherited =>
      (Thrown TypeError,
       if takes_site (objects st) d s then set_objects (merged d s) st else st)
  end.
Proof.
  unfold trigger, bind at 1, gets at 1.
  destruct (get (observables st) e) as [subj| |] eqn:Hs; [| |done].
  - unfold bind. rewrite merge_siteId_eq.
    destruct (takes_site (objects st) d s); [|done].
    unfold next. run. rewrite Hs. rewrite deliver_eq.
    apply get_Own in Hs. unfold observers_of. rewrite Hs. simpl.
    by destruct st.
  - unfold bind. rewrite merge_siteId_eq.
    destruct (takes_site (objects st) d s); [|done].
    unfold next. run. by rewrite Hs.
Qed.

Lemma triggerUnique_eq e d s st :
  triggerUnique e d s st =
  match get (uniqueEvents st) e with
  | Own _ | Inherited => (Returned tt, st)
  | Undefined =>
      if takes_site (objects st) d s
      then (Returned tt, delivered e (observers_of st e) d (stored e d s st))
      else (Thrown TypeError, st)
  end.
Proof.
  unfold triggerUnique, bind at 1, gets at 1.
  destruct (get (uniqueEvents st) e) as [u| |] eqn:Hu; [done|done|].
  apply get_Undefined in Hu as [_ Hni].
  unfold bind at 1. rewrite merge_siteId_eq.
  destruct (takes_site (objects st) d s); [|done].
  unfold stored, next, get, observers_of. rewrite Hni.
  destruct st as [ob un h n c r]. run.
  unfold set_objects, set_uniqueEvents. simpl.
  destruct (ob !! e) as [subj|] eqn:Hs; simpl; rewrite ?Hs; simpl.
  - by rewrite deliver_eq.
  - by rewrite delivered_nil.
Qed.

Lemma observers_of_subscribed e cb s st e' :
  observers_of (subscribed e cb s st) e' =
  if decide (e = e') then observers_of st e' ++ [MkSubscriber (next_subscription st) cb s]
  else observers_of st e'.
Proof.
  unfold subscribed, observers_of at 1. simpl. case_decide as Hd.
  - subst. by rewrite lookup_insert_eq.
  - by rewrite lookup_insert_ne.
Qed.

End Equations.

(** ** What each operation leaves alone *)

Section Frames.

Lemma sublist_StronglySorted {A} (R : relation A) (l1 l2 : list A) :
  l1 `sublist_of` l2 → StronglySorted R l2 → StronglySorted R l1.
Proof.
  induction 1 as [|x l1 l2 Hs IH|x l1 l2 Hs IH]; intros Hl2.
  - constructor.
  - apply StronglySorted_cons in Hl2 as [Hx Hl2].
    apply StronglySorted_cons. split; [|by apply IH].
    rewrite Forall_forall in *. intros y Hy. apply Hx.
    by apply (sublist_subseteq _ _ Hs).
  - apply StronglySorted_cons in Hl2 as [_ Hl2]. by apply IH.
Qed.

Lemma sublist_Forall {A} (P : A → Prop) (l1 l2 : list A) :
  l1 `sublist_of` l2 → Forall P l2 → Forall P l1.
Proof.
  intros Hs. rewrite !Forall_forall. intros H x Hx. apply H.
  by apply (sublist_subseteq _ _ Hs).
Qed.

(** A delivery takes observers out of the subject of its channel, and does
    nothing else to the subjects. *)
Lemma delivered_observers e os v st :
  (∀ e', observers_of (delivered e os v st) e' `sublist_of` observers_of st e')
  ∧ (∀ e', e' ≠ e → observers_of (delivered e os v st) e' = observers_of st e')
  ∧ (∀ e', observables (delivered e os v st) !! e' = None ↔ observables st !! e' = None).
Proof.
  split; [|split].
  - intros e'. rewrite observers_of_delivered. case_decide; [apply sublist_filter|done].
  - intros e' Hne. rewrite observers_of_delivered. by rewrite decide_False by done.
  - intros e'. unfold delivered. simpl. destruct (decide (e = e')) as [<-|Hne].
    + rewrite lookup_alter_eq. by rewrite fmap_None.
    + by rewrite lookup_alter_ne.
Qed.

Lemma trigger_frame e d s st :
  uniqueEvents (trigger e d s st).2 = uniqueEvents st
  ∧ next_subscription (trigger e d s st).2 = next_subscription st
  ∧ (∀ e', observers_of (trigger e d s st).2 e' `sublist_of` observers_of st e')
  ∧ (∀ e', e' ≠ e → observers_of (trigger e d s st).2 e' = observers_of st e')
  ∧ (∀ e', observables (trigger e d s st).2 !! e' = None ↔ observables st !! e' = None).
Proof.
  rewrite trigger_eq.
  pose proof (delivered_observers e (observers_of st e) d (set_objects (merged d s) st))
    as (Hsub & Hne & Hdom).
  destruct (get (observables st) e); destruct (takes_site (objects st) d s); simpl;
    try (by repeat split).
  split; [done|]. split; [done|]. split; [exact Hsub|]. split; [exact Hne|exact Hdom].
Qed.

Lemma triggerUnique_frame e d s st :
  next_subscription (triggerUnique e d s st).2 = next_subscription st
  ∧ (∀ e', observers_of (triggerUnique e d s st).2 e' `sublist_of` observers_of st e')
  ∧ (∀ e', e' ≠ e → observers_of (triggerUnique e d s st).2 e' = observers_of st e')
  ∧ (∀ e', observables (triggerUnique e d s st).2 !! e' = None ↔ observables st !! e' = None)
  ∧ (uniqueEvents (triggerUnique e d s st).2 = uniqueEvents st
     ∨ (get (uniqueEvents st) e = Undefined
        ∧ uniqueEvents (triggerUnique e d s st).2 = <[e := MkUniqueEvent d]> (uniqueEvents st))).
Proof.
  rewrite triggerUnique_eq.
  pose proof (delivered_observers e (observers_of st e) d (stored e d s st))
    as (Hsub & Hne & Hdom).
  destruct (get (uniqueEvents st) e) eqn:Hu; try (by repeat split; try left).
  destruct (takes_site (objects st) d s); simpl; [|by repeat split; try left].
  split; [done|]. split; [exact Hsub|]. split; [exact Hne|]. split; [exact Hdom|].
  by right.
Qed.

Lemma on_frame e cb s st :
  uniqueEvents (on e cb s st).2 = uniqueEvents st
  ∧ objects (on e cb s st).2 = objects st
  ∧ reported (on e cb s st).2 = reported st.
Proof. rewrite on_eq. destruct (replayed st e); by destruct st. Qed.

Lemma mapM_preserves {A B} (f : A → M B) (P : CoreEvents → Prop) l :
  (∀ x st, P st → P (f x st).2) → ∀ st, P st → P (mapM f l st).2.
Proof.
  intros Hf. induction l as [|x l IH]; intros st HP; simpl; [done|].
  unfold bind. specialize (Hf x st HP).
  destruct (f x st) as [[y|err] st1]; simpl in *; [|done].
  specialize (IH st1 Hf).
  destruct (mapM f l st1) as [[ys|err] st2]; simpl in *; done.
Qed.

Lemma onMultiple_preserves (P : CoreEvents → Prop) es cb s :
  (∀ e st, P st → P (on e cb s st).2) → ∀ st, P st → P (onMultiple es cb s st).2.
Proof.
  intros Hf st HP. unfold onMultiple, bind.
  pose proof (mapM_preserves (λ name, on name cb s) P es Hf st HP) as H.
  destruct (mapM _ es st) as [[ys|err] st1]; simpl in *; done.
Qed.

Lemma off_multiple l : off (MultipleObserver l) = off_all l.
Proof. induction l as [|o l IH]; simpl; [done|]. by rewrite <- IH. Qed.

(** [off] never throws; it removes the subscriptions of the observer from
    their subjects and touches nothing else. *)
Lemma off_eq o st :
  (off o st).1 = Returned tt
  ∧ (∀ e, observables (off o st).2 !! e = pruned (subscriptions o) e <$> observables st !! e)
  ∧ uniqueEvents (off o st).2 = uniqueEvents st
  ∧ objects (off o st).2 = objects st
  ∧ next_subscription (off o st).2 = next_subscription st
  ∧ calls (off o st).2 = calls st
  ∧ reported (off o st).2 = reported st.
Proof.
  revert st. induction o as [|e id|l IH] using CoreEventObserver_nested_ind; intros st.
  - simpl. split; [done|]. split; [|done].
    intros e. destruct (observables st !! e) as [[os]|]; simpl; [|done].
    unfold pruned. simpl. f_equal. f_equal.
    induction os as [|o os IHos]; [done|].
    rewrite filter_cons_True by apply not_elem_of_nil. by f_equal.
  - simpl. unfold unsubscribe. run. split; [done|]. split; [|done].
    intros e'. destruct (decide (e = e')) as [<-|Hne].
    + rewrite lookup_alter_eq. destruct (observables st !! e) as [[os]|]; simpl; [|done].
      unfold pruned. simpl. f_equal. f_equal. apply list_filter_iff.
      intros o. rewrite list_elem_of_singleton. split; [congruence|].
      intros H Heq. apply H. by rewrite Heq.
    + rewrite lookup_alter_ne by done.
      destruct (observables st !! e') as [[os]|]; simpl; [|done].
      unfold pruned. simpl. f_equal. f_equal.
      induction os as [|o os IHos]; [done|].
      rewrite filter_cons_True; [by f_equal|].
      rewrite list_elem_of_singleton. congruence.
  - rewrite off_multiple. revert st.
    induction IH as [|o l Ho _ IHl]; intros st; simpl.
    + run. split; [done|]. split; [|done].
      intros e. destruct (observables st !! e) as [[os]|]; simpl; [|done].
      unfold pruned. simpl. f_equal. f_equal.
      induction os as [|o os IHos]; [done|].
      rewrite filter_cons_True by apply not_elem_of_nil. by f_equal.
    + unfold bind. destruct (Ho st) as (Hr & Hob & Hu & Hh & Hn & Hc & Hrep).
      destruct (off o st) as [r st1]. simpl in *. subst r.
      destruct (IHl st1) as (Hr' & Hob' & Hu' & Hh' & Hn' & Hc' & Hrep').
      split; [done|]. split; [|by rewrite Hu', Hh', Hn', Hc', Hrep'].
      intros e. rewrite Hob', Hob.
      destruct (observables st !! e) as [[os]|]; simpl; [|done].
      unfold pruned. simpl. f_equal. f_equal.
      rewrite list_filter_filter. apply list_filter_iff.
      intros x. rewrite elem_of_app. tauto.
Qed.

Lemma observers_of_off o st e :
  observers_of (off o st).2 e =
  filter (λ ob, (e, sub_id ob) ∉ subscriptions o) (observers_of st e).
Proof.
  destruct (off_eq o st) as (_ & Hob & _). unfold observers_of. rewrite Hob.
  by destruct (observables st !! e).
Qed.

End Frames.

(** ** Invariants of the reachable states *)

Section Invariants.

Lemma ordered_initial : ordered initial.
Proof. intros e. unfold observers_of. simpl. rewrite lookup_empty. split; constructor. Qed.

(** An operation that only takes observers away keeps the order. *)
Lemma ordered_sublist st st' :
  (∀ e, observers_of st' e `sublist_of` observers_of st e) →
  next_subscription st' = next_subscription st →
  ordered st → ordered st'.
Proof.
  intros Hsub Hn H e. destruct (H e) as [Hs Hb]. rewrite Hn. split.
  - exact (sublist_StronglySorted _ _ _ (Hsub e) Hs).
  - exact (sublist_Forall _ _ _ (Hsub e) Hb).
Qed.

Lemma ordered_same st st' :
  observables st' = observables st →
  next_subscription st' = next_subscription st →
  ordered st → ordered st'.
Proof. intros Ho Hn H e. unfold observers_of. rewrite Ho, Hn. apply H. Qed.

Lemma ordered_on e cb s st : ordered st → ordered (on e cb s st).2.
Proof.
  intros H. rewrite on_eq. destruct (replayed st e).
  { apply (ordered_same st); by destruct st. }
  intros e'. simpl. rewrite observers_of_subscribed.
  destruct (H e') as [Hs Hb]. case_decide.
  - split.
    + apply StronglySorted_app_2; [|done|by repeat constructor].
      intros x1 x2 Hx1 ->%list_elem_of_singleton.
      rewrite Forall_forall in Hb. apply (Hb x1 Hx1).
    + apply Forall_app. split.
      * eapply Forall_impl; [done|]. simpl. lia.
      * constructor; [simpl; lia|constructor].
  - split; [done|]. eapply Forall_impl; [done|]. simpl. lia.
Qed.

Lemma ordered_off o st : ordered st → ordered (off o st).2.
Proof.
  intros H. apply (ordered_sublist st); [|by destruct (off_eq o st) as (_&_&_&_&->&_)|done].
  intros e. rewrite observers_of_off. apply sublist_filter.
Qed.

Lemma ordered_run_op o st : ordered st → ordered (run_op o st).
Proof.
  intros H. destruct o as [e cb s|es cb s|h|e d s|e d s|ob|l ob]; simpl.
  - by apply ordered_on.
  - apply onMultiple_preserves; [|done]. intros. by apply ordered_on.
  - by apply ordered_off.
  - destruct (trigger_frame e d s st) as (_ & Hn & Hsub & _). by apply (ordered_sublist st).
  - destruct (triggerUnique_frame e d s st) as (Hn & Hsub & _). by apply (ordered_sublist st).
  - by apply (ordered_same st).
  - by apply (ordered_same st).
Qed.

Lemma reachable_ordered st : reachable st → ordered st.
Proof. induction 1; [apply ordered_initial|by apply ordered_run_op]. Qed.

Lemma reachable_run_ops l st : reachable st → reachable (run_ops l st).
Proof.
  revert st. induction l as [|o l IH]; intros st H; simpl; [done|].
  apply IH. by constructor.
Qed.

(** A unique-event record, once stored, stays as it is. *)
Lemma unique_kept_run_op o st e u :
  uniqueEvents st !! e = Some u → uniqueEvents (run_op o st) !! e = Some u.
Proof.
  intros H. destruct o as [e' cb s|es cb s|h|e' d s|e' d s|ob|l ob]; simpl.
  - destruct (on_frame e' cb s st) as [-> _]. done.
  - apply (onMultiple_preserves (λ st, uniqueEvents st !! e = Some u)); [|done].
    intros e' st' H'. by destruct (on_frame e' cb s st') as [-> _].
  - by destruct (off_eq h st) as (_ & _ & -> & _).
  - by destruct (trigger_frame e' d s st) as (-> & _).
  - destruct (triggerUnique_frame e' d s st) as (_ & _ & _ & _ & [-> | [Hu ->]]); [done|].
    rewrite lookup_insert_ne; [done|]. intros ->.
    apply get_Undefined in Hu as [Hu _]. congruence.
  - done.
  - done.
Qed.

Lemma unique_kept_run_ops l st e u :
  uniqueEvents st !! e = Some u → uniqueEvents (run_ops l st) !! e = Some u.
Proof.
  revert st. induction l as [|o l IH]; intros st H; simpl; [done|].
  apply IH. by apply unique_kept_run_op.
Qed.

Lemma ordered_NoDup st e : ordered st → NoDup (sub_id <$> observers_of st e).
Proof.
  intros H. destruct (H e) as [Hs _]. clear H.
  induction Hs as [|o os Hs IH Ho]; simpl; constructor; [|done].
  rewrite list_elem_of_fmap. intros (o' & Heq & Hin).
  rewrite Forall_forall in Ho. specialize (Ho o' Hin).
  unfold registered_before in Ho. lia.
Qed.

(** The bus never gives [observables] or [uniqueEvents] an own property
    that [Object.prototype] has: it finds the inherited one first. *)
Lemma unshadowed_on e cb s st : unshadowed st → unshadowed (on e cb s st).2.
Proof.
  intros H e' He'. rewrite on_eq. unfold replayed.
  destruct (get (uniqueEvents st) e) eqn:Hu; try (destruct st; by apply H).
  apply get_Undefined in Hu as [_ Hni]. simpl. split; [|by apply H].
  rewrite lookup_insert_ne by (intros ->; congruence). by apply H.
Qed.

Lemma unshadowed_run_op o st : unshadowed st → unshadowed (run_op o st).
Proof.
  intros H. destruct o as [e cb s|es cb s|h|e d s|e d s|ob|l ob]; simpl.
  - by apply unshadowed_on.
  - apply onMultiple_preserves; [|done]. intros. by apply unshadowed_on.
  - intros e He. destruct (off_eq h st) as (_ & Hob & -> & _).
    rewrite Hob. destruct (H e He) as [-> ->]. done.
  - intros e' He'. destruct (trigger_frame e d s st) as (-> & _ & _ & _ & Hdom).
    rewrite Hdom. by apply H.
  - intros e' He'. destruct (triggerUnique_frame e d s st) as (_ & _ & _ & Hdom & Hu).
    rewrite Hdom. split; [by apply H|].
    destruct Hu as [-> | [Hu ->]]; [by apply H|].
    apply get_Undefined in Hu as [_ Hni].
    rewrite lookup_insert_ne by (intros ->; congruence). by apply H.
  - done.
  - done.
Qed.

Lemma reachable_unshadowed st : reachable st → unshadowed st.
Proof.
  induction 1 as [|st o _ IH]; [|by apply unshadowed_run_op].
  intros e _. simpl. by rewrite !lookup_empty.
Qed.

End Invariants.

(** ** Calls and their counting *)

Section Calls.

Lemma calls_since_app st st' cs : calls st' = calls st ++ cs → calls_since st st' = cs.
Proof. unfold calls_since. intros ->. apply drop_app_length. Qed.

Lemma calls_since_same st st' : calls st' = calls st → calls_since st st' = [].
Proof. intros H. apply calls_since_app. by rewrite app_nil_r. Qed.

(** The observers a trigger with this outcome has called. *)
Lemma trigger_calls e d s st :
  calls (trigger e d s st).2 =
  calls st ++
  (call_of d <$>
     match (trigger e d s st).1 with
     | Returned _ => filter (λ o, accepts (objects (trigger e d s st).2) o d = true)
                            (observers_of st e)
     | Thrown _ => []
     end).
Proof.
  rewrite trigger_eq. destruct (get (observables st) e) as [subj| |] eqn:Hs.
  - destruct (takes_site (objects st) d s); simpl; [by destruct st|by rewrite app_nil_r].
  - destruct (takes_site (objects st) d s); simpl; [destruct st; simpl|]; by rewrite app_nil_r.
  - apply get_Undefined in Hs as [Hs _]. unfold observers_of. rewrite Hs. simpl.
    by rewrite app_nil_r.
Qed.

Lemma triggerUnique_calls e d s st :
  calls (triggerUnique e d s st).2 =
  calls st ++
  (call_of d <$>
     match get (uniqueEvents st) e, (triggerUnique e d s st).1 with
     | Undefined, Returned _ =>
         filter (λ o, accepts (objects (triggerUnique e d s st).2) o d = true)
                (observers_of st e)
     | _, _ => []
     end).
Proof.
  rewrite triggerUnique_eq. destruct (get (uniqueEvents st) e) as [u| |] eqn:Hu; simpl;
    try by rewrite app_nil_r.
  destruct (takes_site (objects st) d s); simpl; [by destruct st|by rewrite app_nil_r].
Qed.

(** When [trigger] and [triggerUnique] return. *)
Lemma trigger_returns e d s st :
  (trigger e d s st).1 = Returned tt ↔
  get (observables st) e = Undefined
  ∨ (get (observables st) e ≠ Inherited ∧ takes_site (objects st) d s = true).
Proof.
  rewrite trigger_eq. destruct (get (observables st) e) as [subj| |] eqn:Hs.
  - destruct (takes_site (objects st) d s); simpl; split; try done.
    + intros _. by right.
    + by intros [?|[_ ?]].
  - simpl. split; [done|]. by intros [?|[? _]].
  - simpl. split; [by left|done].
Qed.

Lemma triggerUnique_returns e d s st :
  (triggerUnique e d s st).1 = Returned tt ↔
  get (uniqueEvents st) e ≠ Undefined ∨ takes_site (objects st) d s = true.
Proof.
  rewrite triggerUnique_eq. destruct (get (uniqueEvents st) e) as [u| |] eqn:Hu; simpl.
  - split; [by left|done].
  - split; [by left|done].
  - destruct (takes_site (objects st) d s); simpl; split; try done.
    + by right.
    + by intros [?|?].
Qed.

Lemma times_called_fmap id v (l : list Subscriber) :
  NoDup (sub_id <$> l) →
  times_called (Some id) (call_of v <$> l) = if decide (id ∈ sub_id <$> l) then 1 else 0.
Proof.
  unfold times_called. induction l as [|o l IH]; rewrite ?fmap_cons; intros Hnd.
  { by rewrite decide_False by apply not_elem_of_nil. }
  apply NoDup_cons in Hnd as [Hni Hnd]. specialize (IH Hnd).
  destruct (decide (sub_id o = id)) as [<-|Hne].
  - rewrite filter_cons_True by done. cbn [length]. rewrite IH.
    rewrite decide_False by done. rewrite decide_True by left. done.
  - rewrite filter_cons_False by (simpl; congruence). rewrite IH.
    case_decide as H1; case_decide as H2; try done.
    + exfalso. apply H2. by right.
    + exfalso. apply elem_of_cons in H2 as [?|?]; [congruence|done].
Qed.

(** With distinct identities, membership in a sublist is membership of the
    identity. *)
Lemma elem_of_sublist_id (o : Subscriber) l os :
  NoDup (sub_id <$> os) → l `sublist_of` os → o ∈ os →
  sub_id o ∈ sub_id <$> l ↔ o ∈ l.
Proof.
  intros Hnd Hs Ho. split.
  - rewrite list_elem_of_fmap. intros (o' & Heq & Hin).
    assert (o' ∈ os) as Ho' by by apply (sublist_subseteq _ _ Hs).
    assert (o = o') as ->; [|done].
    apply list_elem_of_lookup in Ho as [i Hi]. apply list_elem_of_lookup in Ho' as [j Hj].
    assert (i = j) as ->; [|congruence].
    apply (NoDup_lookup _ i j (sub_id o) Hnd); rewrite list_lookup_fmap.
    + by rewrite Hi.
    + rewrite Hj. simpl. by rewrite Heq.
  - intros Hin. apply list_elem_of_fmap. by exists o.
Qed.

Lemma times_called_sublist v (o : Subscriber) l os :
  NoDup (sub_id <$> os) → l `sublist_of` os → o ∈ os →
  times_called (Some (sub_id o)) (call_of v <$> l) = if decide (o ∈ l) then 1 else 0.
Proof.
  intros Hnd Hs Ho. rewrite times_called_fmap.
  - pose proof (elem_of_sublist_id o l os Hnd Hs Ho) as Hiff.
    case_decide as H1; case_decide as H2; tauto.
  - eapply sublist_NoDup; [done|]. by apply fmap_sublist.
Qed.

Lemma times_called_absent n v (l : list Subscriber) :
  Forall (λ o, sub_id o ≠ n) l → times_called (Some n) (call_of v <$> l) = 0.
Proof.
  unfold times_called. induction 1 as [|o l Ho _ IH]; [done|].
  rewrite fmap_cons, filter_cons_False; [done|]. simpl. congruence.
Qed.

Lemma accepts_iff h o v :
  accepts h o v = true ↔
  truthy_str (sub_siteId o) = false ∨ own_siteId h v = sub_siteId o.
Proof.
  unfold accepts, truthy_str, loose_eq_str.
  destruct (sub_siteId o) as [s|]; simpl; [|intuition].
  destruct (own_siteId h v) as [x|]; simpl.
  - destruct (String.eqb_spec x s) as [->|Hne].
    + rewrite orb_true_r. intuition.
    + rewrite orb_false_r, negb_true_iff, negb_false_iff. split; [by left|].
      intros [?|[=]]; done.
  - rewrite orb_false_r, negb_true_iff, negb_false_iff. split; [by left|].
    intros [?|[=]]; done.
Qed.

Lemma filter_all {A} (P : A → Prop) `{∀ x, Decision (P x)} (l : list A) :
  Forall P l → filter P l = l.
Proof.
  induction 1 as [|x l Hx _ IH]; [done|]. rewrite filter_cons_True by done. by f_equal.
Qed.

Lemma filter_none {A} (P : A → Prop) `{∀ x, Decision (P x)} (l : list A) :
  Forall (λ x, ¬ P x) l → filter P l = [].
Proof.
  induction 1 as [|x l Hx _ IH]; [done|]. by rewrite filter_cons_False.
Qed.

(** The calls of one [trigger], read off the subject: a sublist of the
    observers in their order, all of them accepting the payload, and all the
    accepting ones when the trigger returns. *)
Lemma trigger_called e d s st :
  let st' := (trigger e d s st).2 in
  ∃ called,
    calls_since st st' = call_of d <$> called
    ∧ called `sublist_of` observers_of st e
    ∧ Forall (λ o, accepts (objects st') o d = true) called
    ∧ ((trigger e d s st).1 = Returned tt →
       called = filter (λ o, accepts (objects st') o d = true) (observers_of st e)).
Proof.
  intros st'. pose proof (trigger_calls e d s st) as Hc. fold st' in Hc.
  destruct (trigger e d s st).1 as [[]|err].
  - eexists. split; [by apply calls_since_app|]. split; [apply sublist_filter|].
    split; [|done]. apply Forall_forall. by intros o [? _]%list_elem_of_filter.
  - exists []. split; [by apply calls_since_app|]. split; [apply sublist_nil_l|].
    split; [constructor|done].
Qed.

Lemma triggerUnique_called e d s st :
  let st' := (triggerUnique e d s st).2 in
  ∃ called,
    calls_since st st' = call_of d <$> called
    ∧ called `sublist_of` observers_of st e
    ∧ Forall (λ o, accepts (objects st') o d = true) called
    ∧ (get (uniqueEvents st) e = Undefined → (triggerUnique e d s st).1 = Returned tt →
       called = filter (λ o, accepts (objects st') o d = true) (observers_of st e)).
Proof.
  intros st'. pose proof (triggerUnique_calls e d s st) as Hc. fold st' in Hc.
  destruct (get (uniqueEvents st) e) eqn:Hu;
    try (exists []; split; [by apply calls_since_app|]; split; [apply sublist_nil_l|];
         split; [constructor|done]).
  destruct (triggerUnique e d s st).1 as [[]|err].
  - eexists. split; [by apply calls_since_app|]. split; [apply sublist_filter|].
    split; [|done]. apply Forall_forall. by intros o [? _]%list_elem_of_filter.
  - exists []. split; [by apply calls_since_app|]. split; [apply sublist_nil_l|].
    split; [constructor|done].
Qed.

End Calls.

(** ** Replay of unique events *)

Lemma replayed_Some st e u : uniqueEvents st !! e = Some u → replayed st e = Some (data u).
Proof. intros H. unfold replayed. by rewrite (proj2 (get_Own _ _ _) H). Qed.

Lemma replayed_None st e : replayed st e = None ↔ get (uniqueEvents st) e = Undefined.
Proof. unfold replayed. by destruct (get (uniqueEvents st) e). Qed.

Lemma triggerUnique_again e d s st :
  get (uniqueEvents st) e ≠ Undefined → triggerUnique e d s st = (Returned tt, st).
Proof. intros H. rewrite triggerUnique_eq. by destruct (get (uniqueEvents st) e). Qed.

Lemma triggerUnique_first e d s st :
  get (uniqueEvents st) e = Undefined → takes_site (objects st) d s = true →
  triggerUnique e d s st = (Returned tt, delivered e (observers_of st e) d (stored e d s st)).
Proof. intros Hu Ht. by rewrite triggerUnique_eq, Hu, Ht. Qed.

Lemma triggerUnique_stores e d s st :
  get (uniqueEvents st) e = Undefined → takes_site (objects st) d s = true →
  uniqueEvents (triggerUnique e d s st).2 !! e = Some (MkUniqueEvent d).
Proof.
  intros Hu Ht. rewrite (triggerUnique_first _ _ _ _ Hu Ht). simpl. apply lookup_insert_eq.
Qed.

Lemma on_replay e cb s st u :
  uniqueEvents st !! e = Some u →
  on e cb s st =
  (if cb_throws cb then Thrown (CallbackThrew (cb_id cb)) else Returned FakeObserver,
   record_calls [Call None (cb_id cb) (data u)] st).
Proof. intros H. by rewrite on_eq, (replayed_Some _ _ _ H). Qed.

Lemma on_subscribes e cb s st :
  get (uniqueEvents st) e = Undefined →
  on e cb s st = (Returned (SubjectObserver e (next_subscription st)), subscribed e cb s st).
Proof. intros H. by rewrite on_eq, (proj2 (replayed_None _ _) H). Qed.

(** C1. Once a channel has a unique-event record, every later call of [on]
    for it (after any further use of the bus) calls the callback at once with
    the payload of the record, whatever the site scope; it registers no
    subscription (the subjects and the subscription counter are as before);
    and the observer it returns, which it does unless the callback threw, has
    an [off] that changes nothing in any state. *)
Theorem on_replays_unique_event e cb s st u later :
  uniqueEvents st !! e = Some u →
  let st1 := run_ops later st in
  calls (on e cb s st1).2 = calls st1 ++ [Call None (cb_id cb) (data u)]
  ∧ observables (on e cb s st1).2 = observables st1
  ∧ next_subscription (on e cb s st1).2 = next_subscription st1
  ∧ uniqueEvents (on e cb s st1).2 = uniqueEvents st1
  ∧ (cb_throws cb = false → (on e cb s st1).1 = Returned FakeObserver)
  ∧ (∀ h, (on e cb s st1).1 = Returned h → ∀ st2, off h st2 = (Returned tt, st2)).
Proof.
  intros H st1. pose proof (unique_kept_run_ops later st e u H) as H1.
  fold st1 in H1. rewrite (on_replay _ _ _ _ _ H1). simpl.
  repeat split; try by destruct st1.
  - by intros ->.
  - destruct (cb_throws cb); [done|]. by intros h [= <-] st2.
Qed.

Lemma on_replays_unique_event_witness :
  let st := (triggerUnique "site_plugins_loaded" (VPrim (PNum 7)) None initial).2 in
  let st1 := run_ops [OpTrigger "login" VUndefined None] st in
  uniqueEvents st !! "site_plugins_loaded" = Some (MkUniqueEvent (VPrim (PNum 7)))
  ∧ calls (on "site_plugins_loaded" (Callback 1 false) (Some "site1") st1).2
    = calls st1 ++ [Call None 1 (VPrim (PNum 7))].
Proof.
  split; [reflexivity|].
  apply (on_replays_unique_event "site_plugins_loaded" (Callback 1 false) (Some "site1")
           (triggerUnique "site_plugins_loaded" (VPrim (PNum 7)) None initial).2
           (MkUniqueEvent (VPrim (PNum 7))) [OpTrigger "login" VUndefined None]).
  reflexivity.
Defined.




(** ** [trigger] and the unique-event records *)

Lemma trigger_objects e d s st :
  objects (trigger e d s st).2 =
  match get (observables st) e with
  | Undefined => objects st
  | _ => if takes_site (objects st) d s then merged d s (objects st) else objects st
  end.
Proof.
  rewrite trigger_eq.
  destruct (get (observables st) e); destruct (takes_site (objects st) d s); by destruct st.
Qed.

Lemma triggerUnique_objects e d s st :
  objects (triggerUnique e d s st).2 =
  match get (uniqueEvents st) e with
  | Undefined => if takes_site (objects st) d s then merged d s (objects st) else objects st
  | _ => objects st
  end.
Proof.
  rewrite triggerUnique_eq.
  destruct (get (uniqueEvents st) e); try done.
  destruct (takes_site (objects st) d s); by destruct st.
Qed.

(** Without observers a trigger leaves the subjects as they are. *)
Lemma trigger_nobody e d s st :
  observers_of st e = [] →
  calls (trigger e d s st).2 = calls st
  ∧ observables (trigger e d s st).2 = observables st.
Proof.
  intros Hos. rewrite trigger_eq, Hos.
  destruct (get (observables st) e); destruct (takes_site (objects st) d s);
    rewrite ?delivered_nil; by destruct st.
Qed.

(** C5, counterexample.  Nobody has subscribed to [toString] on a fresh bus,
    and [trigger("toString")] throws a [TypeError]: [this.observables
    ["toString"]] is the function every object inherits, and it has no
    [next].  And on a channel whose subject has lost its only observer, a
    frozen payload with a site makes [Object.assign] throw. *)
Lemma trigger_throws_without_subscribers :
  observers_of initial "toString" = []
  ∧ ¬ trigger_without_subscribers "toString" VUndefined None initial
  ∧ observers_of frozen_payload "login" = []
  ∧ ¬ trigger_without_subscribers "login" (VRef 0) (Some "site1") frozen_payload.
Proof.
  split; [reflexivity|]. split; [|split; [reflexivity|]].
  - intros [_ H]. destruct (H eq_refl) as [Hr _]. vm_compute in Hr. discriminate Hr.
  - intros [_ H]. destruct (H eq_refl) as [Hr _]. vm_compute in Hr. discriminate Hr.
Qed.

(** C5, amended.  [trigger] leaves the table of unique-event records as it
    is, so a channel without a record still has none and a later [on]
    registers instead of replaying.  On a channel without subscribers it
    calls nobody and leaves the subjects as they are, so nothing of the
    payload is kept for a later subscriber; it returns without an error when
    nobody ever subscribed to the channel and its name is not a property of
    [Object.prototype], and also when the channel has a subject and the
    payload can take the site. *)
Theorem trigger_keeps_unique_events e d s st :
  let st' := (trigger e d s st).2 in
  uniqueEvents st' = uniqueEvents st
  ∧ (∀ cb scope, get (uniqueEvents st) e = Undefined →
       (on e cb scope st').1 = Returned (SubjectObserver e (next_subscription st))
       ∧ calls_since st' (on e cb scope st').2 = [])
  ∧ (observers_of st e = [] →
       calls st' = calls st
       ∧ observables st' = observables st
       ∧ (get (observables st) e = Undefined → trigger e d s st = (Returned tt, st))
       ∧ (get (observables st) e ≠ Inherited → takes_site (objects st) d s = true →
            (trigger e d s st).1 = Returned tt)
       ∧ ∀ cb scope, get (uniqueEvents st) e = Undefined →
           calls (on e cb scope st').2 = calls st).
Proof.
  intros st'. destruct (trigger_frame e d s st) as (Hu & Hn & _). fold st' in Hu, Hn.
  assert (∀ cb scope, get (uniqueEvents st) e = Undefined →
            on e cb scope st' =
            (Returned (SubjectObserver e (next_subscription st)), subscribed e cb scope st'))
    as Hon.
  { intros cb scope H. rewrite on_subscribes by by rewrite Hu. by rewrite Hn. }
  split; [done|]. split.
  - intros cb scope H. rewrite (Hon cb scope H). simpl. split; [done|].
    by apply calls_since_same.
  - intros Hos. destruct (trigger_nobody e d s st Hos) as [Hc Hob]. fold st' in Hc, Hob.
    split; [done|]. split; [done|]. split; [|split].
    + intros H. by rewrite trigger_eq, H.
    + intros H1 H2. apply trigger_returns. by right.
    + intros cb scope H. by rewrite (Hon cb scope H).
Qed.

Lemma trigger_keeps_unique_events_witness :
  let st' := (trigger "login" (VPrim (PStr "payload")) (Some "site1") initial).2 in
  observers_of initial "login" = []
  ∧ uniqueEvents st' = uniqueEvents initial
  ∧ (trigger "login" (VPrim (PStr "payload")) (Some "site1") initial).1 = Returned tt
  ∧ calls (on "login" (Callback 1 false) None st').2 = [].
Proof.
  split; [reflexivity|].
  destruct (trigger_keeps_unique_events "login" (VPrim (PStr "payload")) (Some "site1") initial)
    as (Hunique & _ & Hnone).
  destruct (Hnone eq_refl) as (_ & _ & _ & Hret & Hlater).
  split; [exact Hunique|]. split; [apply Hret; [discriminate|reflexivity]|].
  exact (Hlater (Callback 1 false) None eq_refl).
Defined.

(** ** The site of a payload that is not an object *)

(** C9. When the data of [trigger] or [triggerUnique] is falsy
    ([undefined], [null], [false], [0], [NaN] or the empty string) and a site
    is given, [Object.assign] writes the site into a temporary object that
    nothing refers to.  Where [trigger] delivers, that is, on a channel that
    has a subject, and where [triggerUnique] is not ignored, the call
    returns, the heap is the old one followed by the temporary object, and
    the observers called are exactly those without a site, in their order,
    each with the data itself, which has no [siteId]; the record that
    [triggerUnique] stores holds the same data.  In every case the objects
    that existed are untouched and no call hands over anything but the
    data. *)
Theorem siteId_lost_on_falsy_data e d s st :
  truthy d = false →
  let st' := (trigger e d (Some s) st).2 in
  let st'' := (triggerUnique e d (Some s) st).2 in
  let temporary := if truthy_str (Some s) then [Object (Some s) [] Extensible] else [] in
  let unscoped := filter (λ o, truthy_str (sub_siteId o) = false) (observers_of st e) in
  own_siteId (objects st') d = None
  ∧ own_siteId (objects st'') d = None
  ∧ (is_Some (observables st !! e) →
       (trigger e d (Some s) st).1 = Returned tt
       ∧ objects st' = objects st ++ temporary
       ∧ calls_since st st' = call_of d <$> unscoped)
  ∧ (get (uniqueEvents st) e = Undefined →
       (triggerUnique e d (Some s) st).1 = Returned tt
       ∧ objects st'' = objects st ++ temporary
       ∧ uniqueEvents st'' !! e = Some (MkUniqueEvent d)
       ∧ calls_since st st'' = call_of d <$> unscoped)
  ∧ (∀ c, c ∈ calls_since st st' ∨ c ∈ calls_since st st'' → call_value c = d)
  ∧ (∀ l o, objects st !! l = Some o →
       objects st' !! l = Some o ∧ objects st'' !! l = Some o).
Proof.
  intros Hd st' st'' temporary unscoped.
  assert (Hm : merged d (Some s) (objects st) = objects st ++ temporary).
  { unfold merged. subst temporary. destruct (truthy_str (Some s)).
    - by destruct d.
    - by rewrite app_nil_r. }
  assert (Ht : takes_site (objects st) d (Some s) = true).
  { unfold takes_site. destruct d; try done; apply orb_true_r. }
  assert (Hown : ∀ h, own_siteId h d = None) by (intros h; by destruct d).
  assert (Hacc : ∀ h, filter (λ o, accepts h o d = true) (observers_of st e) = unscoped).
  { intros h. apply list_filter_iff. intros o. rewrite accepts_iff, Hown.
    split; [|by left]. intros [?|Heq]; [done|].
    by destruct (sub_siteId o). }
  assert (Hval : ∀ (l : list Subscriber) c, c ∈ call_of d <$> l → call_value c = d).
  { intros l c (o & -> & _)%list_elem_of_fmap. done. }
  split; [apply Hown|]. split; [apply Hown|]. split; [|split; [|split]].
  - intros [subj Hs]. apply get_Own in Hs.
    assert (Hr : (trigger e d (Some s) st).1 = Returned tt).
    { apply trigger_returns. right. split; [by rewrite Hs|done]. }
    split; [done|]. split.
    + subst st'. by rewrite trigger_objects, Hs, Ht.
    + apply calls_since_app. subst st'. rewrite trigger_calls, Hr. by rewrite Hacc.
  - intros Hu.
    assert (Hr : (triggerUnique e d (Some s) st).1 = Returned tt).
    { apply triggerUnique_returns. by right. }
    split; [done|]. split; [|split].
    + subst st''. by rewrite triggerUnique_objects, Hu, Ht.
    + by apply triggerUnique_stores.
    + apply calls_since_app. subst st''. rewrite triggerUnique_calls, Hu, Hr.
      by rewrite Hacc.
  - intros c [Hc|Hc].
    + destruct (trigger_called e d (Some s) st) as (called & Heq & _).
      fold st' in Heq. rewrite Heq in Hc. by apply (Hval called).
    + destruct (triggerUnique_called e d (Some s) st) as (called & Heq & _).
      fold st'' in Heq. rewrite Heq in Hc. by apply (Hval called).
  - intros l o Hl. subst st' st''. rewrite trigger_objects, triggerUnique_objects, Ht, Hm.
    assert (Hold : (objects st ++ temporary) !! l = Some o).
    { by apply lookup_app_l_Some. }
    split.
    + by destruct (get (observables st) e).
    + by destruct (get (uniqueEvents st) e).
Qed.

Lemma siteId_lost_on_falsy_data_witness :
  let st := (on "login" (Callback 1 false) None initial).2 in
  truthy VUndefined = false
  ∧ calls_since st (trigger "login" VUndefined (Some "site1") st).2
    = [Call (Some 0) 1 VUndefined]
  ∧ objects (trigger "login" VUndefined (Some "site1") st).2
    = [Object (Some "site1") [] Extensible]
  ∧ calls_since st (triggerUnique "login" VUndefined (Some "site1") st).2
    = [Call (Some 0) 1 VUndefined]
  ∧ uniqueEvents (triggerUnique "login" VUndefined (Some "site1") st).2 !! "login"
    = Some (MkUniqueEvent VUndefined).
Proof.
  split; [reflexivity|].
  pose proof (siteId_lost_on_falsy_data "login" VUndefined "site1"
                (on "login" (Callback 1 false) None initial).2 eq_refl)
    as (_ & _ & Htrigger & Hunique & _).
  destruct Htrigger as (_ & Hobjects & Hcalls); [vm_compute; by eexists|].
  destruct (Hunique eq_refl) as (_ & _ & Hrecord & Hcalls').
  split; [exact Hcalls|]. split; [exact Hobjects|]. split; [exact Hcalls'|exact Hrecord].
Defined.

(** ** Who is called by a unique trigger *)

(** C3, counterexample: an observer registered for [site1] is not called by
    the first unique trigger when the payload is tagged [site2].  Nor are the
    later subscribers served when the unique trigger stores no record: on the
    channel [toString] it is ignored and the subscriber is handed
    [undefined], and with a frozen payload and a site it throws and the
    subscriber is registered and handed nothing. *)
Lemma unique_trigger_skips_other_site :
  uniqueEvents one_site_observer !! "site_added" = None
  ∧ (triggerUnique "site_added" (VRef 0) (Some "site2") one_site_observer).1 = Returned tt
  ∧ ¬ every_subscriber_observes_once "site_added" (VRef 0) (Some "site2") one_site_observer
  ∧ ¬ every_subscriber_observes_once "toString" (VPrim (PNum 1)) None initial
  ∧ ¬ every_subscriber_observes_once "site_added" (VRef 0) (Some "site1") frozen_payload.
Proof.
  split; [reflexivity|]. split; [reflexivity|]. split; [|split].
  - intros [H _].
    specialize (H (MkSubscriber 0 (Callback 1 false) (Some "site1"))).
    vm_compute in H. discriminate H. left.
  - intros [_ H]. specialize (H [] (Callback 1 false) None).
    vm_compute in H. discriminate H.
  - intros [_ H]. specialize (H [] (Callback 1 false) None).
    vm_compute in H. discriminate H.
Qed.

(** C3, amended.  Let [triggerUnique] be the first unique trigger of its
    channel, the name of the channel not being a property of
    [Object.prototype] (the test [this.uniqueEvents[eventName]] of the code is
    negative), with a payload that can take the site.  Then the trigger
    returns; the observers it calls are those registered on the channel that
    have no site or whose site the payload carries, in their order, each with
    the payload; in a state the bus can reach, such an observer is called
    exactly once and every other observer of the channel not at all; and
    whoever subscribes later, with any site, is called exactly once, at once,
    with the payload. *)
Theorem unique_trigger_observed_once e v s st :
  get (uniqueEvents st) e = Undefined →
  takes_site (objects st) v s = true →
  let st' := (triggerUnique e v s st).2 in
  (triggerUnique e v s st).1 = Returned tt
  ∧ calls_since st st' =
      call_of v <$> filter (λ o, accepts (objects st') o v = true) (observers_of st e)
  ∧ (reachable st → ∀ o, o ∈ observers_of st e →
       times_called (Some (sub_id o)) (calls_since st st') =
       if decide (truthy_str (sub_siteId o) = false
                  ∨ own_siteId (objects st') v = sub_siteId o)
       then 1 else 0)
  ∧ (∀ later cb scope,
       calls_since (run_ops later st') (on e cb scope (run_ops later st')).2
       = [Call None (cb_id cb) v]).
Proof.
  intros Hu Ht st'.
  assert (Hr : (triggerUnique e v s st).1 = Returned tt).
  { apply triggerUnique_returns. by right. }
  assert (Hc : calls_since st st' =
    call_of v <$> filter (λ o, accepts (objects st') o v = true) (observers_of st e)).
  { apply calls_since_app. subst st'. by rewrite triggerUnique_calls, Hu, Hr. }
  split; [done|]. split; [done|]. split.
  - intros Hreach o Ho. rewrite Hc.
    rewrite (times_called_sublist v o _ (observers_of st e)); [|
      by apply ordered_NoDup, reachable_ordered | apply sublist_filter | done].
    pose proof (accepts_iff (objects st') o v) as Hiff.
    case_decide as H1; case_decide as H2; try done.
    + exfalso. apply H2, Hiff. by apply list_elem_of_filter in H1 as [? _].
    + exfalso. apply H1, list_elem_of_filter. split; [by apply Hiff|done].
  - intros later cb scope. apply calls_since_app.
    pose proof (triggerUnique_stores e v s st Hu Ht) as Hst. fold st' in Hst.
    rewrite (on_replay e cb scope _ _ (unique_kept_run_ops later st' e _ Hst)).
    by destruct (run_ops later st').
Qed.

Lemma unique_trigger_observed_once_witness :
  let st := one_site_observer in
  let st' := (triggerUnique "site_added" (VRef 0) (Some "site1") st).2 in
  get (uniqueEvents st) "site_added" = Undefined
  ∧ takes_site (objects st) (VRef 0) (Some "site1") = true
  ∧ calls_since st st' = [Call (Some 0) 1 (VRef 0)]
  ∧ calls_since st' (on "site_added" (Callback 2 false) (Some "site2") st').2
    = [Call None 2 (VRef 0)].
Proof.
  split; [reflexivity|]. split; [reflexivity|].
  pose proof (unique_trigger_observed_once "site_added" (VRef 0) (Some "site1")
                one_site_observer eq_refl eq_refl) as (_ & Hc & _ & Hlater).
  split; [exact Hc|]. exact (Hlater [] (Callback 2 false) (Some "site2")).
Defined.

(** ** Site-scoped subscriptions *)

(** C4. Take a subscription made by [on], in a state the bus can reach.  A
    [trigger] calls its callback at most once.  When the subscription checks
    the site, that is, when its site is not falsy (the test of the arrow
    function is [!siteId]): the callback is called only if the [siteId] of the
    payload, as delivered, equals the site of the subscription, so a payload
    with another site or with none is not handed to it; and when the trigger
    returns, it is called exactly once if the sites are equal.  A subscription
    without a site (or with the empty string) is called whatever the payload
    carries.  The replay of a unique event inside [on] looks at no site: the
    callback is called with the stored payload whatever site was given. *)
Theorem site_scoped_delivery e d s st o :
  reachable st →
  o ∈ observers_of st e →
  let st' := (trigger e d s st).2 in
  let n := times_called (Some (sub_id o)) (calls_since st st') in
  n ≤ 1
  ∧ (truthy_str (sub_siteId o) = true →
       (n = 1 → own_siteId (objects st') d = sub_siteId o)
       ∧ (own_siteId (objects st') d ≠ sub_siteId o → n = 0)
       ∧ ((trigger e d s st).1 = Returned tt →
            (n = 1 ↔ own_siteId (objects st') d = sub_siteId o)
            ∧ (call_of d o ∈ calls_since st st'
               ↔ own_siteId (objects st') d = sub_siteId o)))
  ∧ (truthy_str (sub_siteId o) = false → (trigger e d s st).1 = Returned tt → n = 1)
  ∧ (∀ u cb scope, uniqueEvents st !! e = Some u →
       calls_since st (on e cb scope st).2 = [Call None (cb_id cb) (data u)]).
Proof.
  intros Hreach Ho st' n.
  destruct (trigger_called e d s st) as (called & Hc & Hsub & Hacc & Hret).
  fold st' in Hc, Hacc, Hret.
  assert (n = if decide (o ∈ called) then 1 else 0) as Hn.
  { subst n. rewrite Hc. apply (times_called_sublist d o called (observers_of st e));
      [by apply ordered_NoDup, reachable_ordered|done|done]. }
  split; [rewrite Hn; case_decide; lia|]. split; [|split].
  - intros Hsite.
    assert (accepts (objects st') o d = true ↔ own_siteId (objects st') d = sub_siteId o)
      as Hiff.
    { rewrite accepts_iff. split; [|by right]. intros [?|?]; [congruence|done]. }
    assert (o ∈ called → own_siteId (objects st') d = sub_siteId o) as Honly.
    { intros Hin. apply Hiff. rewrite Forall_forall in Hacc. by apply Hacc. }
    split; [rewrite Hn; case_decide; [auto|done]|].
    split; [rewrite Hn; case_decide; [intros; exfalso; auto|done]|].
    intros Hr. specialize (Hret Hr).
    assert (own_siteId (objects st') d = sub_siteId o → o ∈ called) as Hif.
    { intros Heq. rewrite Hret. apply list_elem_of_filter. split; [by apply Hiff|done]. }
    split.
    + rewrite Hn. case_decide; [tauto|]. split; [done|]. intros; exfalso; auto.
    + rewrite Hc. split.
      * intros (o' & Heq & Hin)%list_elem_of_fmap. apply Honly.
        assert (sub_id o ∈ sub_id <$> called) as Hid.
        { apply list_elem_of_fmap. exists o'. split; [|done].
          by injection Heq. }
        apply (elem_of_sublist_id o called (observers_of st e)); try done.
        by apply ordered_NoDup, reachable_ordered.
      * intros Heq. apply list_elem_of_fmap. exists o. split; [done|]. by apply Hif.
  - intros Hsite Hr. specialize (Hret Hr). rewrite Hn, decide_True; [done|].
    rewrite Hret. apply list_elem_of_filter. split; [|done].
    apply accepts_iff. by left.
  - intros u cb scope Hu. apply calls_since_app. rewrite (on_replay _ _ _ _ _ Hu).
    by destruct st.
Qed.

Lemma site_scoped_delivery_witness :
  let st := one_site_observer in
  let o := MkSubscriber 0 (Callback 1 false) (Some "site1") in
  reachable st
  ∧ o ∈ observers_of st "site_added"
  ∧ times_called (Some 0) (calls_since st (trigger "site_added" (VRef 0) (Some "site2") st).2) = 0
  ∧ times_called (Some 0) (calls_since st (trigger "site_added" (VRef 0) (Some "site1") st).2) = 1.
Proof.
  assert (reachable one_site_observer) as Hr
    by apply reachable_run_ops, reachable_initial.
  assert (MkSubscriber 0 (Callback 1 false) (Some "site1")
            ∈ observers_of one_site_observer "site_added") as Ho
    by (vm_compute; left).
  split; [exact Hr|]. split; [exact Ho|]. split.
  - destruct (site_scoped_delivery "site_added" (VRef 0) (Some "site2")
                one_site_observer _ Hr Ho) as (_ & Hscoped & _).
    destruct (Hscoped eq_refl) as (_ & H0 & _).
    apply H0. vm_compute. discriminate.
  - destruct (site_scoped_delivery "site_added" (VRef 0) (Some "site1")
                one_site_observer _ Hr Ho) as (_ & Hscoped & _).
    destruct (Hscoped eq_refl) as (_ & _ & H1).
    apply (H1 eq_refl). reflexivity.
Defined.

(** ** Exceptions *)

(** When the four operations return: [on] and [onMultiple] unless the
    callback throws while a record is replayed, [off] always, [triggerUnique]
    when the payload can take the site, and [trigger] when moreover the name
    of the channel is not a property of [Object.prototype]. *)
Lemma operations_return e es cb scope h d s st :
  (cb_throws cb = false →
     (∃ o, (on e cb scope st).1 = Returned o)
     ∧ (∃ o, (onMultiple es cb scope st).1 = Returned o))
  ∧ (off h st).1 = Returned tt
  ∧ (takes_site (objects st) d s = true →
     (get (observables st) e ≠ Inherited → (trigger e d s st).1 = Returned tt)
     ∧ (triggerUnique e d s st).1 = Returned tt).
Proof.
  split; [|split].
  - intros Hcb.
    assert (∀ e' st', ∃ o, (on e' cb scope st').1 = Returned o) as Hon.
    { intros e' st'. rewrite on_eq. destruct (replayed st' e'); simpl; [|by eexists].
      rewrite Hcb. by eexists. }
    split; [apply Hon|]. unfold onMultiple, bind.
    assert (∃ os, (mapM (λ name, on name cb scope) es st).1 = Returned os) as [os Hos].
    { revert st. induction es as [|e' es IH]; intros st; simpl; [by eexists|].
      unfold bind. destruct (Hon e' st) as [o Ho].
      destruct (on e' cb scope st) as [r st1]. simpl in Ho. subst r.
      destruct (IH st1) as [os Hos].
      destruct (mapM _ es st1) as [r st2]. simpl in Hos. subst r. by eexists. }
    destruct (mapM _ es st) as [r st1]. simpl in Hos. subst r. by eexists.
  - by destruct (off_eq h st) as [-> _].
  - intros Ht. split.
    + intros Hs. apply trigger_returns. by right.
    + apply triggerUnique_returns. by right.
Qed.

(** C6, the failing cases.  With no callback involved, [trigger] throws a
    [TypeError] on a channel whose name is a property of [Object.prototype],
    such as [toString] or [constructor], in every state the bus can reach
    and whatever the payload and the site: the channel has no observer, and
    [this.observables[eventName]] is the inherited property, which has no
    [next].  And [trigger], on a channel somebody has subscribed to, and
    [triggerUnique], the first time, throw a [TypeError] when a site is
    given with a payload that cannot take it, such as a frozen object; the
    state is then left as it was. *)
Theorem trigger_throws_without_callback e d s st :
  (reachable st → inherited e = true →
     observers_of st e = []
     ∧ (trigger e d s st).1 = Thrown TypeError
     ∧ calls (trigger e d s st).2 = calls st)
  ∧ (takes_site (objects st) d s = false →
       (get (observables st) e ≠ Undefined → trigger e d s st = (Thrown TypeError, st))
       ∧ (get (uniqueEvents st) e = Undefined →
            triggerUnique e d s st = (Thrown TypeError, st))).
Proof.
  split.
  - intros Hr He. destruct (reachable_unshadowed st Hr e He) as [Ho _].
    assert (Hos : observers_of st e = []) by (unfold observers_of; by rewrite Ho).
    split; [done|]. split; [|by apply trigger_nobody].
    rewrite trigger_eq, (proj2 (get_Inherited _ _) (conj Ho He)). done.
  - intros Ht. split.
    + intros Hs. rewrite trigger_eq, Ht. by destruct (get (observables st) e).
    + intros Hu. by rewrite triggerUnique_eq, Hu, Ht.
Qed.

Lemma trigger_throws_without_callback_witness :
  (inherited "toString" = true
   ∧ (trigger "toString" VUndefined None initial).1 = Thrown TypeError
   ∧ calls (trigger "toString" VUndefined None initial).2 = [])
  ∧ (takes_site (objects frozen_payload) (VRef 0) (Some "site1") = false
     ∧ (trigger "login" (VRef 0) (Some "site1") frozen_payload).1 = Thrown TypeError
     ∧ (triggerUnique "login" (VRef 0) (Some "site1") frozen_payload).1 = Thrown TypeError).
Proof.
  split.
  - split; [reflexivity|].
    exact (proj2 (proj1 (trigger_throws_without_callback "toString" VUndefined None initial)
                    reachable_initial eq_refl)).
  - split; [reflexivity|].
    destruct (proj2 (trigger_throws_without_callback "login" (VRef 0) (Some "site1")
                       frozen_payload) eq_refl) as [Htrigger Hunique].
    split.
    + by rewrite Htrigger.
    + by rewrite Hunique.
Defined.

(** ** Order of delivery *)

(** C7. In a state the bus can reach, one [trigger] calls observers of its
    channel in the order in which they registered: the calls it makes are
    those of a sublist of the subject's observers, which is sorted by
    registration, and they are all the observers accepting the payload when
    the trigger returns.  [on] registers at the end of that order, when the
    test [this.uniqueEvents[eventName]] of the code is negative.  It raises no
    exception of its own: it returns unless its callback throws, and the only
    exception that can leave it is the one its callback throws while it is
    called at once, in the place of a registration. *)
Theorem delivery_in_registration_order e d s st :
  reachable st →
  let st' := (trigger e d s st).2 in
  (∃ called,
     calls_since st st' = call_of d <$> called
     ∧ called `sublist_of` observers_of st e
     ∧ StronglySorted registered_before called
     ∧ ((trigger e d s st).1 = Returned tt →
        called = filter (λ o, accepts (objects st') o d = true) (observers_of st e)))
  ∧ StronglySorted registered_before (observers_of st e)
  ∧ (∀ cb scope, get (uniqueEvents st) e = Undefined →
       (on e cb scope st).1 = Returned (SubjectObserver e (next_subscription st))
       ∧ observers_of (on e cb scope st).2 e =
           observers_of st e ++ [MkSubscriber (next_subscription st) cb scope]
       ∧ Forall (λ o, registered_before o (MkSubscriber (next_subscription st) cb scope))
           (observers_of st e))
  ∧ (∀ cb scope, cb_throws cb = false → ∃ h, (on e cb scope st).1 = Returned h)
  ∧ (∀ cb scope err, (on e cb scope st).1 = Thrown err →
       err = CallbackThrew (cb_id cb) ∧ cb_throws cb = true
       ∧ get (uniqueEvents st) e ≠ Undefined
       ∧ observables (on e cb scope st).2 = observables st).
Proof.
  intros Hreach st'. pose proof (reachable_ordered st Hreach e) as [Hsorted Hbound].
  split; [|split; [done|split; [|split]]].
  - destruct (trigger_called e d s st) as (called & Hc & Hsub & _ & Hret).
    exists called. split; [done|]. split; [done|]. split; [|done].
    by apply (sublist_StronglySorted _ _ _ Hsub).
  - intros cb scope Hu. rewrite on_subscribes by done. simpl. split; [done|].
    rewrite observers_of_subscribed, decide_True by done. split; [done|].
    eapply Forall_impl; [done|]. intros o Ho. exact Ho.
  - intros cb scope Hcb. rewrite on_eq.
    destruct (replayed st e); simpl; [|by eexists].
    rewrite Hcb. by eexists.
  - intros cb scope err. rewrite on_eq.
    destruct (replayed st e) as [v|] eqn:Hv; simpl; [|done].
    destruct (cb_throws cb); [|done]. intros [= <-].
    split; [done|]. split; [done|]. split; [|by destruct st].
    intros Hu. apply replayed_None in Hu. congruence.
Qed.

Lemma delivery_in_registration_order_witness :
  let st := run_ops [OpOn "login" (Callback 1 false) None;
                     OpOn "login" (Callback 2 false) None;
                     OpOn "login" (Callback 3 false) None;
                     OpOff (SubjectObserver "login" 1)] initial in
  reachable st
  ∧ calls_since st (trigger "login" VNull None st).2
    = [Call (Some 0) 1 VNull; Call (Some 2) 3 VNull]
  ∧ ∃ called,
      calls_since st (trigger "login" VNull None st).2 = call_of VNull <$> called
      ∧ called `sublist_of` observers_of st "login"
      ∧ StronglySorted registered_before called.
Proof.
  assert (reachable (run_ops [OpOn "login" (Callback 1 false) None;
                              OpOn "login" (Callback 2 false) None;
                              OpOn "login" (Callback 3 false) None;
                              OpOff (SubjectObserver "login" 1)] initial)) as Hr
    by apply reachable_run_ops, reachable_initial.
  split; [exact Hr|]. split; [reflexivity|].
  destruct (delivery_in_registration_order "login" VNull None _ Hr)
    as ((called & Hc & Hsub & Hsorted & _) & _).
  exists called. by repeat split.
Defined.

(** ** [onMultiple] *)

Section OnMultiple.

Lemma mapM_on_independently names cb s st :
  mapM (λ name, on name cb s) names st = on_independently names cb s st.
Proof.
  revert st. induction names as [|name names IH]; intros st; simpl; [done|].
  unfold bind. destruct (on name cb s st) as [[h|err] st1]; [|done].
  rewrite IH. by destruct (on_independently names cb s st1) as [[hs|err] st2].
Qed.

Lemma onMultiple_eq names cb s st :
  onMultiple names cb s st =
  match on_independently names cb s st with
  | (Returned hs, st1) => (Returned (MultipleObserver hs), st1)
  | (Thrown err, st1) => (Thrown err, st1)
  end.
Proof.
  unfold onMultiple, bind. rewrite mapM_on_independently.
  by destruct (on_independently names cb s st) as [[hs|err] st1].
Qed.

Lemma off_all_each hs st : off_all hs st = (Returned tt, off_each hs st).
Proof.
  revert st. induction hs as [|h hs IH]; intros st; simpl; [done|].
  unfold bind. destruct (off_eq h st) as (Hr & _).
  destruct (off h st) as [r st1]. simpl in *. subst r. apply IH.
Qed.

(** What a run of independent [on]s that returns has done: subscriptions were
    added at the end of the subjects, with new identities, and the observers
    returned stand for exactly those. *)
Lemma on_independently_added names cb s st hs st1 :
  on_independently names cb s st = (Returned hs, st1) →
  next_subscription st ≤ next_subscription st1
  ∧ (∀ e id, (e, id) ∈ flat_map subscriptions hs → next_subscription st ≤ id)
  ∧ (∀ e, ∃ added,
       observers_of st1 e = observers_of st e ++ added
       ∧ Forall (λ ob, (e, sub_id ob) ∈ flat_map subscriptions hs) added).
Proof.
  revert st hs st1. induction names as [|name names IH]; intros st hs st1; simpl.
  { intros [= <- <-]. split; [done|]. split.
    - intros e id H. by apply elem_of_nil in H.
    - intros e. exists []. by rewrite app_nil_r. }
  rewrite on_eq. destruct (replayed st name) as [v|] eqn:Hu.
  - destruct (cb_throws cb); [done|].
    destruct (on_independently names cb s (record_calls _ st)) as [[hs'|err] st2] eqn:Hrec;
      [|done].
    intros [= <- <-]. destruct (IH _ _ _ Hrec) as (Hn & Hids & Hadd).
    split; [by destruct st|]. split.
    + intros e id H. simpl in H. specialize (Hids e id H). by destruct st.
    + intros e. destruct (Hadd e) as (added & Heq & Hall). exists added.
      split; [rewrite Heq; by destruct st|done].
  - destruct (on_independently names cb s (subscribed name cb s st)) as [[hs'|err] st2] eqn:Hrec;
      [|done].
    intros [= <- <-]. destruct (IH _ _ _ Hrec) as (Hn & Hids & Hadd). simpl in Hn.
    split; [lia|]. split.
    + intros e id H. simpl in H. apply elem_of_cons in H as [[= -> ->]|H]; [done|].
      specialize (Hids e id H). simpl in Hids. lia.
    + intros e. destruct (Hadd e) as (added & Heq & Hall).
      rewrite observers_of_subscribed in Heq. case_decide as Hd.
      * subst e. exists (MkSubscriber (next_subscription st) cb s :: added).
        split; [by rewrite Heq, <- app_assoc|].
        constructor; [simpl; by left|].
        eapply Forall_impl; [done|]. intros ob Hob. simpl. by right.
      * exists added. split; [done|].
        eapply Forall_impl; [done|]. intros ob Hob. simpl. by right.
Qed.

(** Releasing the observer of [onMultiple] puts every subject back to the
    observers it had. *)
Lemma onMultiple_released names cb s st h st1 :
  ordered st →
  onMultiple names cb s st = (Returned h, st1) →
  ∀ e, observers_of (off h st1).2 e = observers_of st e.
Proof.
  intros Hord. rewrite onMultiple_eq.
  destruct (on_independently names cb s st) as [[hs|err] st2] eqn:Hrun; [|done].
  intros [= <- <-] e. destruct (on_independently_added _ _ _ _ _ _ Hrun) as (_ & Hids & Hadd).
  destruct (Hadd e) as (added & Heq & Hall).
  rewrite observers_of_off, Heq, filter_app. simpl.
  rewrite filter_all, filter_none; [by rewrite app_nil_r| |].
  - eapply Forall_impl; [done|]. intros ob Hob Hn. by apply Hn.
  - destruct (Hord e) as [_ Hb]. eapply Forall_impl; [done|].
    intros ob Hob Hin. specialize (Hids _ _ Hin). simpl in Hob. lia.
Qed.

(** A trigger on a channel that has a subject with one observer, which has
    no site. *)
Lemma trigger_one_observer e d s st n cb :
  observers_of st e = [MkSubscriber n cb None] →
  takes_site (objects st) d s = true →
  (trigger e d s st).1 = Returned tt
  ∧ calls (trigger e d s st).2 = calls st ++ [Call (Some n) (cb_id cb) d]
  ∧ objects (trigger e d s st).2 = merged d s (objects st).
Proof.
  intros Hos Ht.
  assert (Hs : ∃ subj, get (observables st) e = Own subj).
  { unfold observers_of in Hos. destruct (observables st !! e) as [subj|] eqn:Hs; [|done].
    exists subj. by apply get_Own. }
  destruct Hs as [subj Hs].
  assert (Hr : (trigger e d s st).1 = Returned tt).
  { apply trigger_returns. right. by rewrite Hs. }
  split; [done|]. split; [|by rewrite trigger_objects, Hs, Ht].
  rewrite trigger_calls, Hr, Hos. by rewrite filter_cons_True by done.
Qed.

End OnMultiple.




(** * Properties of the routing table *)

Module AppRoutingFacts.
Import AppRouting.

(** *** One statement of the wrapper at a time *)

Section Steps.

Lemma get_set_field f f' a route :
  get_field f' (set_field f a route) = if decide (f = f') then Some a else get_field f' route.
Proof. destruct f, f'; by case_decide. Qed.

Lemma other_fields_set f a route : other_fields (set_field f a route) = other_fields route.
Proof. by destruct f. Qed.

Lemma read_write f r a h f' r' :
  r < length (routes h) →
  read f' r' (write f r a h) = if decide (r = r' ∧ f = f') then Some a else read f' r' h.
Proof.
  unfold read, write. simpl. intros Hr. destruct (decide (r = r')) as [<-|Hne].
  - rewrite list_lookup_alter_eq. destruct (lookup_lt_is_Some_2 _ _ Hr) as [route ->].
    simpl. rewrite get_set_field. destruct (decide (f = f')) as [->|Hf].
    + by rewrite decide_True.
    + rewrite decide_False; [done|]. by intros [_ ?].
  - rewrite list_lookup_alter_ne by done. rewrite decide_False; [done|]. by intros [? _].
Qed.

Lemma or_new_array_read f r h f' r' :
  r < length (routes h) →
  read f' r' (or_new_array f r h) =
  if decide (r = r' ∧ f = f') then Some (default (length (arrays h)) (read f r h))
  else read f' r' h.
Proof.
  intros Hr. unfold or_new_array. destruct (read f r h) as [a|] eqn:Ha.
  - by rewrite read_write.
  - by rewrite read_write.
Qed.

Lemma or_new_array_arrays f r h :
  arrays (or_new_array f r h) =
  arrays h ++ match read f r h with Some _ => [] | None => [[]] end.
Proof.
  unfold or_new_array. destruct (read f r h); simpl; [by rewrite app_nil_r|done].
Qed.

Lemma or_new_array_routes f r h r' :
  length (routes (or_new_array f r h)) = length (routes h)
  ∧ other_fields <$> routes (or_new_array f r h) !! r' = other_fields <$> routes h !! r'.
Proof.
  unfold or_new_array, write.
  destruct (read f r h); simpl; rewrite length_alter; (split; [done|]);
    (destruct (decide (r = r')) as [<-|Hne];
     [rewrite list_lookup_alter_eq; destruct (routes h !! r); simpl; [|done];
      by rewrite other_fields_set
     |by rewrite list_lookup_alter_ne]).
Qed.

Lemma or_new_array_well_formed f r h :
  r < length (routes h) → well_formed h → well_formed (or_new_array f r h).
Proof.
  intros Hr Hwf r' f' a. rewrite or_new_array_read, or_new_array_arrays, length_app by done.
  case_decide as Hd.
  - intros [= <-]. destruct (read f r h) as [a|] eqn:Ha; simpl; [|lia].
    specialize (Hwf _ _ _ Ha). lia.
  - intros Ha. specialize (Hwf _ _ _ Ha). lia.
Qed.

(** Creating an absent list changes the guards of no route: the list it
    creates is empty, and an absent list counts as empty. *)
Lemma or_new_array_guards f r h f' r' :
  r < length (routes h) → well_formed h →
  guards_of (or_new_array f r h) f' r' = guards_of h f' r'.
Proof.
  intros Hr Hwf. unfold guards_of. rewrite or_new_array_read, or_new_array_arrays by done.
  case_decide as Hd.
  - destruct Hd as [<- <-]. destruct (read f r h) as [a|] eqn:Ha; simpl.
    + by rewrite app_nil_r.
    + by rewrite lookup_app_r, Nat.sub_diag by lia.
  - destruct (read f' r' h) as [a|] eqn:Ha; [|done].
    specialize (Hwf _ _ _ Ha). by rewrite lookup_app_l by done.
Qed.

Lemma push_read f r g h f' r' : read f' r' (push f r g h) = read f' r' h.
Proof. unfold push. by destruct (read f r h). Qed.

Lemma push_routes f r g h : routes (push f r g h) = routes h.
Proof. unfold push. by destruct (read f r h). Qed.

Lemma push_arrays f r g h a :
  read f r h = Some a → arrays (push f r g h) = alter (λ l, l ++ [g]) a (arrays h).
Proof. unfold push. by intros ->. Qed.

Lemma push_length f r g h : length (arrays (push f r g h)) = length (arrays h).
Proof. unfold push. destruct (read f r h); simpl; [apply length_alter|done]. Qed.

Lemma push_well_formed f r g h : well_formed h → well_formed (push f r g h).
Proof. intros Hwf r' f' a. rewrite push_read, push_length. apply Hwf. Qed.

(** [push] adds the guard to the routes that use the array, and to no other. *)
Lemma push_guards f r g h a f' r' :
  well_formed h → read f r h = Some a →
  guards_of (push f r g h) f' r' =
  guards_of h f' r' ++ (if decide (read f' r' h = Some a) then [g] else []).
Proof.
  intros Hwf Ha. unfold guards_of. rewrite push_read, (push_arrays _ _ _ _ _ Ha).
  destruct (read f' r' h) as [a'|] eqn:Ha'.
  - destruct (decide (a = a')) as [<-|Hne].
    + rewrite decide_True by done. rewrite list_lookup_alter_eq.
      destruct (lookup_lt_is_Some_2 (arrays h) a (Hwf _ _ _ Ha)) as [l ->]. done.
    + rewrite decide_False by congruence. rewrite list_lookup_alter_ne by done.
      by rewrite app_nil_r.
  - by rewrite decide_False by done.
Qed.

Lemma refs_eq h r :
  refs h r =
  match read CanLoad r h with Some a => [a] | None => [] end
  ++ match read CanActivate r h with Some b => [b] | None => [] end.
Proof. unfold refs. simpl. by destruct (read CanLoad r h), (read CanActivate r h). Qed.

Lemma elem_of_refs h r a : a ∈ refs h r ↔ ∃ f, read f r h = Some a.
Proof.
  unfold refs. rewrite list_elem_of_omap. split.
  - intros (f & _ & Hf). by exists f.
  - intros [f Hf]. exists f. split; [|done]. destruct f; set_solver.
Qed.

(** The wrapper on one route whose two lists are not one and the same array. *)
Lemma wrap_spec r h :
  well_formed h → r < length (routes h) → NoDup (refs h r) →
  well_formed (wrap r h)
  ∧ length (routes (wrap r h)) = length (routes h)
  ∧ length (arrays h) ≤ length (arrays (wrap r h))
  ∧ (∀ f, guards_of (wrap r h) f r = guards_of h f r ++ [CoreRedirectGuard])
  ∧ (∀ f r', r' ≠ r → read f r' (wrap r h) = read f r' h)
  ∧ (∀ f, ∃ a, read f r (wrap r h) = Some a
            ∧ (read f r h = Some a ∨ (read f r h = None ∧ length (arrays h) ≤ a)))
  ∧ (∀ a, a < length (arrays h) → a ∉ refs h r → arrays (wrap r h) !! a = arrays h !! a)
  ∧ (∀ r', other_fields <$> routes (wrap r h) !! r' = other_fields <$> routes h !! r').
Proof.
  intros Hwf Hr Hnd. unfold wrap.
  set (h1 := or_new_array CanLoad r h).
  set (h2 := or_new_array CanActivate r h1).
  set (h3 := push CanLoad r CoreRedirectGuard h2).
  set (h4 := push CanActivate r CoreRedirectGuard h3).
  assert (Hr1 : r < length (routes h1)).
  { subst h1. by rewrite (proj1 (or_new_array_routes CanLoad r h 0)). }
  assert (Hwf1 : well_formed h1) by by apply or_new_array_well_formed.
  assert (Hwf2 : well_formed h2) by by apply or_new_array_well_formed.
  assert (Hwf3 : well_formed h3) by by apply push_well_formed.
  assert (Hwf4 : well_formed h4) by by apply push_well_formed.
  set (a := default (length (arrays h)) (read CanLoad r h)).
  set (b := default (length (arrays h1)) (read CanActivate r h)).
  assert (Hread1 : ∀ f' r', read f' r' h1 =
            if decide (r = r' ∧ CanLoad = f') then Some a else read f' r' h).
  { intros. subst h1. by rewrite or_new_array_read. }
  assert (Hread2 : ∀ f' r', read f' r' h2 =
            if decide (r = r' ∧ CanActivate = f') then Some b
            else if decide (r = r' ∧ CanLoad = f') then Some a else read f' r' h).
  { intros. subst h2. rewrite or_new_array_read by done. rewrite !Hread1.
    rewrite (decide_False (P := r = r ∧ CanLoad = CanActivate)) by by intros [_ ?].
    done. }
  assert (Ha2 : read CanLoad r h2 = Some a).
  { rewrite Hread2. rewrite decide_False by by intros [_ ?]. by rewrite decide_True. }
  assert (Hb2 : read CanActivate r h2 = Some b).
  { rewrite Hread2. by rewrite decide_True. }
  assert (Hb3 : read CanActivate r h3 = Some b).
  { subst h3. by rewrite push_read. }
  assert (Hlen1 : length (arrays h1) =
            length (arrays h) + match read CanLoad r h with Some _ => 0 | None => 1 end).
  { subst h1. rewrite or_new_array_arrays, length_app. by destruct (read CanLoad r h). }
  assert (Hlen2 : length (arrays h2) =
            length (arrays h1) + match read CanActivate r h with Some _ => 0 | None => 1 end).
  { subst h2. rewrite or_new_array_arrays, length_app, Hread1.
    rewrite decide_False by by intros [_ ?]. by destruct (read CanActivate r h). }
  assert (Hab : a ≠ b).
  { subst a b. rewrite refs_eq in Hnd. rewrite Hlen1.
    destruct (read CanLoad r h) as [a0|] eqn:Ea, (read CanActivate r h) as [b0|] eqn:Eb;
      simpl in *.
    - apply NoDup_cons in Hnd as [Hni _]. intros ->. apply Hni. by left.
    - specialize (Hwf _ _ _ Ea). lia.
    - specialize (Hwf _ _ _ Eb). lia.
    - lia. }
  assert (Hold : ∀ a', a' < length (arrays h) → a' ∉ refs h r → a' ≠ a ∧ a' ≠ b).
  { intros a' Hlt Hni. subst a b. rewrite Hlen1. rewrite elem_of_refs in Hni.
    destruct (read CanLoad r h) as [a0|] eqn:Ea, (read CanActivate r h) as [b0|] eqn:Eb;
      simpl; split; try lia; intros ->; apply Hni; eauto. }
  assert (Hg : ∀ f' r', guards_of h4 f' r' =
            guards_of h f' r'
            ++ (if decide (read f' r' h2 = Some a) then [CoreRedirectGuard] else [])
            ++ (if decide (read f' r' h2 = Some b) then [CoreRedirectGuard] else [])).
  { intros f' r'. subst h4.
    rewrite (push_guards _ _ _ _ b) by done.
    subst h3. rewrite (push_guards _ _ _ _ a) by done. rewrite push_read.
    subst h2. rewrite or_new_array_guards by done.
    subst h1. rewrite or_new_array_guards by done. by rewrite <- app_assoc. }
  split; [done|]. split.
  { subst h4 h3. rewrite !push_routes. subst h2.
    rewrite (proj1 (or_new_array_routes CanActivate r h1 0)). subst h1.
    by rewrite (proj1 (or_new_array_routes CanLoad r h 0)). }
  split.
  { subst h4 h3. rewrite !push_length. lia. }
  split.
  { intros f. rewrite Hg. destruct f.
    - rewrite Ha2. rewrite decide_True by done. rewrite decide_False by congruence.
      by rewrite app_nil_r.
    - rewrite Hb2. rewrite decide_False by congruence. by rewrite decide_True. }
  split.
  { intros f r' Hne. subst h4 h3. rewrite !push_read, Hread2.
    rewrite !decide_False; [done| |]; by intros [? _]. }
  split.
  { intros f. subst h4 h3. rewrite !push_read. destruct f.
    - exists a. split; [done|]. subst a. destruct (read CanLoad r h); simpl; [by left|].
      right. split; [done|lia].
    - exists b. split; [done|]. subst b. destruct (read CanActivate r h); simpl; [by left|].
      right. split; [done|lia]. }
  split.
  { intros a' Hlt Hni. destruct (Hold a' Hlt Hni) as [Hna Hnb].
    subst h4. rewrite (push_arrays _ _ _ _ b) by done.
    rewrite list_lookup_alter_ne by done.
    subst h3. rewrite (push_arrays _ _ _ _ a) by done.
    rewrite list_lookup_alter_ne by done.
    subst h2. rewrite or_new_array_arrays, lookup_app_l by lia.
    subst h1. by rewrite or_new_array_arrays, lookup_app_l by lia. }
  intros r'. subst h4 h3. rewrite !push_routes. subst h2.
  rewrite (proj2 (or_new_array_routes CanActivate r h1 r')). subst h1.
  by rewrite (proj2 (or_new_array_routes CanLoad r h r')).
Qed.

Lemma guards_of_eq h h' f r :
  read f r h' = read f r h →
  (∀ a, read f r h = Some a → arrays h' !! a = arrays h !! a) →
  guards_of h' f r = guards_of h f r.
Proof.
  intros Hread Harr. unfold guards_of. rewrite Hread.
  destruct (read f r h) as [a|]; [|done]. by rewrite Harr.
Qed.

Lemma refs_ext h h' r : (∀ f, read f r h' = read f r h) → refs h' r = refs h r.
Proof. intros H. unfold refs. simpl. by rewrite !H. Qed.

Lemma bind_refs_ext h h' (l : list nat) :
  (∀ r, r ∈ l → refs h' r = refs h r) → l ≫= refs h' = l ≫= refs h.
Proof.
  induction l as [|r l IH]; intros H; [done|].
  rewrite !bind_cons. rewrite H by left. rewrite IH; [done|].
  intros r' Hr'. apply H. by right.
Qed.

End Steps.

(** *** All the routes *)

Lemma wrap_all_spec l h :
  well_formed h → Forall (λ r, r < length (routes h)) l → unshared h l →
  well_formed (wrap_all l h)
  ∧ length (routes (wrap_all l h)) = length (routes h)
  ∧ length (arrays h) ≤ length (arrays (wrap_all l h))
  ∧ (∀ r f, r ∈ l → guards_of (wrap_all l h) f r = guards_of h f r ++ [CoreRedirectGuard])
  ∧ (∀ r f, r ∉ l → read f r (wrap_all l h) = read f r h)
  ∧ (∀ a, a < length (arrays h) → a ∉ l ≫= refs h →
       arrays (wrap_all l h) !! a = arrays h !! a)
  ∧ (∀ r, other_fields <$> routes (wrap_all l h) !! r = other_fields <$> routes h !! r).
Proof.
  revert h. induction l as [|r l IH]; intros h Hwf Hvalid [Hnd Hrefs].
  { simpl. repeat split; try done. intros r f Hin. by apply elem_of_nil in Hin. }
  rewrite bind_cons in Hrefs. apply NoDup_app in Hrefs as (Hrefs_r & Hdisj & Hrefs_l).
  apply NoDup_cons in Hnd as [Hr_l Hnd].
  apply Forall_cons in Hvalid as [Hr Hvalid].
  destruct (wrap_spec r h Hwf Hr Hrefs_r) as (S1 & S2 & S3 & S4 & S5 & S6 & S7 & S8).
  set (h1 := wrap r h) in *.
  assert (Hsame : l ≫= refs h1 = l ≫= refs h).
  { apply bind_refs_ext. intros r' Hr'. apply refs_ext. intros f. apply S5.
    intros ->. done. }
  assert (Hvalid1 : Forall (λ r, r < length (routes h1)) l) by by rewrite S2.
  assert (Hun1 : unshared h1 l) by (split; [done|by rewrite Hsame]).
  destruct (IH h1 S1 Hvalid1 Hun1) as (I1 & I2 & I3 & I4 & I5 & I6 & I7).
  change (wrap_all (r :: l) h) with (wrap_all l h1).
  assert (Hl_old : ∀ a, a ∈ l ≫= refs h → a < length (arrays h)).
  { intros a (r' & Ha & _)%list_elem_of_bind. apply elem_of_refs in Ha as [f Hf].
    by apply (Hwf _ _ _ Hf). }
  split; [done|]. split; [by rewrite I2|]. split; [lia|]. split.
  { intros r' f Hin. apply elem_of_cons in Hin as [->|Hin].
    - rewrite <- S4. apply guards_of_eq; [by apply I5|].
      intros a Ha. apply I6; [by apply (S1 _ _ _ Ha)|]. rewrite Hsame. intros Hin.
      destruct (S6 f) as (a' & Ha' & [Hold|[_ Hnew]]).
      + rewrite Ha in Ha'. injection Ha' as <-.
        apply (Hdisj a); [|done]. apply elem_of_refs. by exists f.
      + rewrite Ha in Ha'. injection Ha' as <-. specialize (Hl_old a Hin). lia.
    - rewrite I4 by done. f_equal. apply guards_of_eq.
      + apply S5. by intros ->.
      + intros a Ha. apply S7; [by apply (Hwf _ _ _ Ha)|].
        intros Hin_r. apply (Hdisj a Hin_r). apply list_elem_of_bind.
        exists r'. split; [|done]. apply elem_of_refs. by exists f. }
  split.
  { intros r' f Hni. rewrite I5, S5; [done| |]; intros ?; apply Hni; [subst; by left|by right]. }
  split.
  { intros a Hlt Hni. rewrite bind_cons in Hni. rewrite I6, S7; [done|done| |lia|].
    - intros ?. apply Hni, elem_of_app. by left.
    - rewrite Hsame. intros ?. apply Hni, elem_of_app. by right. }
  intros r'. by rewrite I7, S8.
Qed.




End AppRoutingFacts.

(** * Properties of the conditional matcher *)

Module UrlMatchingFacts.
Import UrlMatching.

Section Parts.

Lemma split_slash_length path : 1 ≤ length (split_slash path).
Proof.
  induction path as [|c rest IH]; simpl; [done|].
  destruct (Ascii.eqb c "/"); simpl; [lia|].
  destruct (split_slash rest); simpl; lia.
Qed.

Lemma parameter_part part name :
  part = String ":" name ↔ isParameter part = true ∧ substring1 part = name.
Proof.
  destruct part as [|c rest]; simpl.
  - split; [done|by intros [? _]].
  - rewrite Ascii.eqb_eq. split; [by intros [= -> ->]|by intros [-> ->]].
Qed.

(** The loop succeeds exactly when every part agrees with its segment. *)
Lemma match_parts_is_Some parts segments acc :
  is_Some (match_parts parts segments acc) ↔
  length parts ≤ length segments
  ∧ Forall2 part_fits parts (take (length parts) segments).
Proof.
  revert segments acc. induction parts as [|part parts IH]; intros segments acc; simpl.
  { split; [|by eauto]. intros _. split; [lia|]. rewrite take_0. constructor. }
  destruct segments as [|segment segments]; simpl.
  { split; [by intros [? [=]]|]. intros [Hlen _]. lia. }
  destruct (isParameter part) eqn:Hp.
  - rewrite IH. split; intros [Hl HF].
    + split; [lia|]. constructor; [by left|done].
    + split; [lia|]. by inversion HF.
  - destruct (decide (part = segment_path segment)) as [Heq|Hne].
    + rewrite bool_decide_eq_false_2 by (intros H; by apply H).
      rewrite IH. split; intros [Hl HF].
      * split; [lia|]. constructor; [by right|done].
      * split; [lia|]. by inversion HF.
    + rewrite bool_decide_eq_true_2 by done.
      split; [by intros [? [=]]|]. intros [_ HF].
      inversion HF as [|? ? ? ? [Hfit|Hfit]]; subst; congruence.
Qed.

Lemma named_segments_cons name part parts segment segments :
  named_segments name (part :: parts) (segment :: segments) =
  (if decide (part = String ":" name) then [segment] else [])
  ++ named_segments name parts segments.
Proof. unfold named_segments. simpl. by case_decide. Qed.

Lemma set_param_own name segment p name' :
  own_params (set_param name segment p) !! name' =
  if decide (name ≠ "__proto__" ∧ name = name') then Some segment else own_params p !! name'.
Proof.
  unfold set_param. case_bool_decide as Hp; simpl.
  - rewrite decide_False; [done|]. by intros [? _].
  - destruct (decide (name = name')) as [<-|Hne].
    + rewrite decide_True by done. apply lookup_insert_eq.
    + rewrite decide_False by by intros [_ ?]. by apply lookup_insert_ne.
Qed.

Lemma set_param_prototype name segment p :
  prototype (set_param name segment p) =
  if decide (name = "__proto__") then Some segment else prototype p.
Proof. unfold set_param. case_bool_decide; by case_decide. Qed.

(** Every name but [__proto__] is bound to the segment under its last part
    [:name]; the other names keep what the accumulator had. *)
Lemma match_parts_own parts segments acc pp name :
  name ≠ "__proto__" →
  match_parts parts segments acc = Some pp →
  own_params pp !! name = match last (named_segments name parts segments) with
                          | Some segment => Some segment
                          | None => own_params acc !! name
                          end.
Proof.
  intros Hname.
  revert segments acc. induction parts as [|part parts IH]; intros segments acc; simpl.
  { by intros [= ->]. }
  destruct segments as [|segment segments]; [done|].
  rewrite named_segments_cons.
  destruct (isParameter part) eqn:Hp.
  - intros H. rewrite (IH _ _ H). case_decide as Hd.
    + apply parameter_part in Hd as [_ Hsub]. simpl. rewrite last_cons.
      destruct (last (named_segments name parts segments)); [done|].
      rewrite set_param_own, decide_True; [done|]. by rewrite Hsub.
    + simpl. destruct (last (named_segments name parts segments)); [done|].
      rewrite set_param_own, decide_False; [done|]. intros [_ Hsub]. apply Hd.
      by apply parameter_part.
  - case_bool_decide as Hne; [done|]. intros Hrest. rewrite (IH _ _ Hrest).
    rewrite decide_False; [done|]. intros Hd. apply parameter_part in Hd as [Hd _].
    congruence.
Qed.

(** The name [__proto__] is never bound. *)
Lemma match_parts_no_proto_key parts segments acc pp :
  match_parts parts segments acc = Some pp →
  own_params pp !! "__proto__" = own_params acc !! "__proto__".
Proof.
  revert segments acc. induction parts as [|part parts IH]; intros segments acc; simpl.
  { by intros [= ->]. }
  destruct segments as [|segment segments]; [done|].
  destruct (isParameter part).
  - intros H. rewrite (IH _ _ H), set_param_own, decide_False; [done|].
    intros [H1 H2]. by apply H1.
  - case_bool_decide; [done|]. apply IH.
Qed.

(** The prototype is the segment under the last part [:__proto__]. *)
Lemma match_parts_prototype parts segments acc pp :
  match_parts parts segments acc = Some pp →
  prototype pp = match last (named_segments "__proto__" parts segments) with
                 | Some segment => Some segment
                 | None => prototype acc
                 end.
Proof.
  revert segments acc. induction parts as [|part parts IH]; intros segments acc; simpl.
  { by intros [= ->]. }
  destruct segments as [|segment segments]; [done|].
  rewrite named_segments_cons.
  destruct (isParameter part) eqn:Hp.
  - intros H. rewrite (IH _ _ H). case_decide as Hd.
    + apply parameter_part in Hd as [_ Hsub]. simpl. rewrite last_cons.
      destruct (last (named_segments "__proto__" parts segments)); [done|].
      by rewrite set_param_prototype, decide_True.
    + simpl. destruct (last (named_segments "__proto__" parts segments)); [done|].
      rewrite set_param_prototype, decide_False; [done|]. intros Hsub. apply Hd.
      by apply parameter_part.
  - case_bool_decide as Hne; [done|]. intros Hrest. rewrite (IH _ _ Hrest).
    rewrite decide_False; [done|]. intros Hd. apply parameter_part in Hd as [Hd _].
    congruence.
Qed.

Lemma match_parts_app parts segments more acc pp :
  match_parts parts segments acc = Some pp →
  match_parts parts (segments ++ more) acc = Some pp.
Proof.
  revert segments acc. induction parts as [|part parts IH]; intros segments acc; simpl.
  { done. }
  destruct segments as [|segment segments]; [done|]. simpl.
  destruct (isParameter part); [apply IH|].
  case_bool_decide; [done|apply IH].
Qed.

End Parts.

Section Matcher.

Context {App : Type}.
Implicit Types (condition : App → bool) (app : App).
Implicit Types (segments : list UrlSegment) (group : UrlSegmentGroup).
Implicit Types (route : AppRouting.Route).

(** The answer of the matcher built for a path, without the condition. *)
Lemma path_matcher_eq path condition app segments group route :
  condition app = true → path ≠ "" →
  buildConditionalUrlMatcher (IsPath path) condition app segments group route =
  if bool_decide (length segments < length (split_slash path)) then Returned None
  else if bool_decide (AppRouting.pathMatch route = Some "full")
          && (hasChildren group
              || bool_decide (length (split_slash path) < length segments))
  then Returned None
  else match match_parts (split_slash path) segments ∅ with
       | None => Returned None
       | Some pp =>
           Returned (Some (MkUrlMatchResult (take (length (split_slash path)) segments)
                                            (Some pp)))
       end.
Proof.
  intros Hc Hp. unfold buildConditionalUrlMatcher. rewrite Hc. simpl.
  by rewrite (bool_decide_eq_false_2 (path = "")) by done.
Qed.

(** X1. A matcher built for a non-empty path, when its condition holds,
    matches exactly when the path fits the URL: there are no more parts than
    segments, every part is a parameter or equals the path of the segment at
    its place, and for a full match no segment and no child is left.  It then
    consumes the first segments, one per part; otherwise it answers [null]. *)
Theorem conditional_path_matches path condition app segments group route :
  condition app = true → path ≠ "" →
  let parts := split_slash path in
  let full := bool_decide (AppRouting.pathMatch route = Some "full") in
  let answer := buildConditionalUrlMatcher (IsPath path) condition app segments group route in
  (path_fits parts segments full group →
     ∃ pp, answer = Returned (Some (MkUrlMatchResult (take (length parts) segments) (Some pp))))
  ∧ (¬ path_fits parts segments full group → answer = Returned None).
Proof.
  intros Hc Hp parts full answer. subst answer.
  rewrite path_matcher_eq by done. fold parts. fold full.
  pose proof (match_parts_is_Some parts segments ∅) as Hparts.
  split.
  - intros (Hlen & Hfits & Hfull).
    rewrite bool_decide_eq_false_2 by lia.
    destruct full.
    + destruct (Hfull eq_refl) as [-> Heq]. simpl.
      rewrite bool_decide_eq_false_2 by lia. simpl.
      destruct (proj2 Hparts (conj Hlen Hfits)) as [pp ->]. by exists pp.
    + simpl. destruct (proj2 Hparts (conj Hlen Hfits)) as [pp ->]. by exists pp.
  - intros Hnot. case_bool_decide as Hlen; [done|].
    destruct (full && (hasChildren group || bool_decide (length parts < length segments)))
      eqn:Hf; [done|].
    destruct (match_parts parts segments ∅) as [pp|] eqn:Hm; [|done].
    exfalso. apply Hnot. destruct (proj1 Hparts (mk_is_Some _ _ eq_refl)) as [Hl HF].
    split; [done|]. split; [done|]. intros ->. simpl in Hf.
    apply orb_false_iff in Hf as [Hch Hlt]. split; [done|].
    apply bool_decide_eq_false_1 in Hlt. lia.
Qed.

(** X2. Whatever its path, a matcher built for a path never throws; what it
    consumes is a prefix of the segments, one segment per part of the path
    and none for the empty path; and under [pathMatch: 'full'] it consumes
    every segment. *)
Theorem conditional_path_consumes path condition app segments group route :
  let answer := buildConditionalUrlMatcher (IsPath path) condition app segments group route in
  (∀ e, answer ≠ Thrown e)
  ∧ (∀ res, answer = Returned (Some res) →
       condition app = true
       ∧ consumed res `prefix_of` segments
       ∧ length (consumed res) = (if decide (path = "") then 0 else length (split_slash path))
       ∧ (AppRouting.pathMatch route = Some "full" → consumed res = segments)).
Proof.
  intros answer. subst answer. unfold buildConditionalUrlMatcher.
  destruct (condition app); simpl; [|split; [done|by intros res [=]]].
  case_bool_decide as Hp.
  { rewrite decide_True by done.
    destruct (negb _ || _) eqn:Hor; (split; [done|]); intros res [= <-]; simpl.
    split; [done|]. split; [apply prefix_nil|]. split; [done|].
    intros Hfull. rewrite (bool_decide_eq_true_2 _ Hfull) in Hor. simpl in Hor.
    apply bool_decide_eq_true_1 in Hor. by destruct segments. }
  rewrite decide_False by done.
  case_bool_decide as Hlen; [split; [done|by intros res [=]]|].
  destruct (bool_decide (AppRouting.pathMatch route = Some "full")
            && (hasChildren group
                || bool_decide (length (split_slash path) < length segments))) eqn:Hf;
    [split; [done|by intros res [=]]|].
  destruct (match_parts (split_slash path) segments ∅) as [pp|];
    [|split; [done|by intros res [=]]].
  split; [done|]. intros res [= <-]. simpl.
  split; [done|]. split; [apply prefix_take|]. split; [rewrite length_take; lia|].
  intros Hfull. rewrite (bool_decide_eq_true_2 _ Hfull) in Hf. simpl in Hf.
  apply orb_false_iff in Hf as [_ Hlt]. apply bool_decide_eq_false_1 in Hlt.
  apply take_ge. lia.
Qed.

(** X3. When a matcher built for a non-empty path matches, its positional
    parameters bind every name other than [__proto__] to the segment standing
    under the last part [:name] of the path, and bind no other name.  A part
    [:__proto__] binds nothing: the segment under the last such part becomes
    the prototype of the object of parameters. *)
Theorem conditional_path_parameters path condition app segments group route res :
  path ≠ "" →
  buildConditionalUrlMatcher (IsPath path) condition app segments group route
    = Returned (Some res) →
  ∃ pp, posParams res = Some pp
        ∧ (∀ name, name ≠ "__proto__" →
             own_params pp !! name = last (named_segments name (split_slash path) segments))
        ∧ own_params pp !! "__proto__" = None
        ∧ prototype pp = last (named_segments "__proto__" (split_slash path) segments).
Proof.
  intros Hp. destruct (condition app) eqn:Hc.
  - rewrite path_matcher_eq by done.
    case_bool_decide; [done|]. destruct (_ && _); [done|].
    destruct (match_parts (split_slash path) segments ∅) as [pp|] eqn:Hm; [|done].
    intros [= <-]. exists pp. split; [done|]. split; [|split].
    + intros name Hname. rewrite (match_parts_own _ _ _ _ name Hname Hm). simpl.
      rewrite lookup_empty. by destruct (last _).
    + rewrite (match_parts_no_proto_key _ _ _ _ Hm). apply lookup_empty.
    + rewrite (match_parts_prototype _ _ _ _ Hm). by destruct (last _).
  - unfold buildConditionalUrlMatcher. by rewrite Hc.
Qed.

(** X4. A match that is not a full match does not look past the segments it
    consumes: with further segments behind, and whatever the segment group,
    the matcher gives the same answer. *)
Theorem conditional_path_prefix path condition app segments group group' route res more :
  AppRouting.pathMatch route ≠ Some "full" →
  buildConditionalUrlMatcher (IsPath path) condition app segments group route
    = Returned (Some res) →
  buildConditionalUrlMatcher (IsPath path) condition app (segments ++ more) group' route
    = Returned (Some res).
Proof.
  intros Hfull. unfold buildConditionalUrlMatcher.
  destruct (condition app); simpl; [|done].
  rewrite (bool_decide_eq_false_2 _ Hfull). simpl.
  case_bool_decide; [done|].
  case_bool_decide as Hlen; [done|].
  rewrite bool_decide_eq_false_2 by (rewrite length_app; lia).
  destruct (match_parts (split_slash path) segments ∅) as [pp|] eqn:Hm; [|done].
  rewrite (match_parts_app _ _ more _ _ Hm). intros [= <-].
  by rewrite take_app_le by lia.
Qed.

End Matcher.

Lemma conditional_path_matches_witness :
  let route := AppRouting.MkRoute None (Some "full") None [] None None in
  let url := [MkUrlSegment "course" []; MkUrlSegment "42" []] in
  ∃ pp,
    buildConditionalUrlMatcher (IsPath "course/:id") (λ logged : bool, logged) true url
      (MkUrlSegmentGroup false) route
    = Returned (Some (MkUrlMatchResult url (Some pp))).
Proof.
  destruct (conditional_path_matches "course/:id" (λ logged : bool, logged) true
              [MkUrlSegment "course" []; MkUrlSegment "42" []] (MkUrlSegmentGroup false)
              (AppRouting.MkRoute None (Some "full") None [] None None)
              eq_refl ltac:(discriminate)) as [Hfits _].
  apply Hfits. split; [simpl; lia|]. split.
  - simpl. constructor; [by right|]. constructor; [by left|constructor].
  - intros _. split; reflexivity.
Defined.

Lemma conditional_path_parameters_witness :
  let url := [MkUrlSegment "course" []; MkUrlSegment "42" []; MkUrlSegment "7" [];
              MkUrlSegment "edit" []] in
  ∃ res pp,
    buildConditionalUrlMatcher (IsPath "course/:id/:id/:__proto__") (λ _ : unit, true) tt url
      (MkUrlSegmentGroup false) (AppRouting.MkRoute None None None [] None None)
    = Returned (Some res)
    ∧ posParams res = Some pp
    ∧ own_params pp !! "id" = Some (MkUrlSegment "7" [])
    ∧ own_params pp !! "course" = None
    ∧ own_params pp !! "__proto__" = None
    ∧ prototype pp = Some (MkUrlSegment "edit" []).
Proof.
  assert (Hrun : buildConditionalUrlMatcher (IsPath "course/:id/:id/:__proto__")
            (λ _ : unit, true) tt
            [MkUrlSegment "course" []; MkUrlSegment "42" []; MkUrlSegment "7" [];
             MkUrlSegment "edit" []]
            (MkUrlSegmentGroup false) (AppRouting.MkRoute None None None [] None None)
          = Returned (Some (MkUrlMatchResult
              [MkUrlSegment "course" []; MkUrlSegment "42" []; MkUrlSegment "7" [];
               MkUrlSegment "edit" []]
              (Some (MkPosParams
                       (<["id" := MkUrlSegment "7" []]> (<["id" := MkUrlSegment "42" []]> ∅))
                       (Some (MkUrlSegment "edit" [])))))))
    by reflexivity.
  destruct (conditional_path_parameters "course/:id/:id/:__proto__" _ _ _ _ _ _
              ltac:(discriminate) Hrun) as (pp & Hpp & Hbind & Hkey & Hproto).
  eexists. exists pp. split; [exact Hrun|]. split; [exact Hpp|].
  split; [rewrite Hbind by discriminate; reflexivity|].
  split; [rewrite Hbind by discriminate; reflexivity|].
  split; [exact Hkey|]. rewrite Hproto. reflexivity.
Defined.

Lemma conditional_path_prefix_witness :
  let route := AppRouting.MkRoute None None None [] None None in
  let answer more group :=
    buildConditionalUrlMatcher (IsPath "user") (λ _ : unit, true) tt
      (MkUrlSegment "user" [] :: more) group route in
  answer [MkUrlSegment "profile" []] (MkUrlSegmentGroup true)
  = Returned (Some (MkUrlMatchResult [MkUrlSegment "user" []] (Some ∅))).
Proof.
  apply (conditional_path_prefix "user" (λ _ : unit, true) tt [MkUrlSegment "user" []]
           (MkUrlSegmentGroup false) (MkUrlSegmentGroup true)
           (AppRouting.MkRoute None None None [] None None)
           (MkUrlMatchResult [MkUrlSegment "user" []] (Some ∅))
           [MkUrlSegment "profile" []]);
    [discriminate|reflexivity].
Defined.

Section Conditional.

Context {App : Type}.
Implicit Types (condition : App → bool) (routes : list (RouteConfig App)).

Lemma lookup_map {A B} (f : A → B) (l : list A) i : map f l !! i = f <$> l !! i.
Proof. revert i. induction l as [|x l IH]; intros [|i]; simpl; auto. Qed.

Lemma conditionalRoutes_lookup routes condition i :
  conditionalRoutes routes condition !! i =
  (λ route, MkRouteConfig
              (Some (buildConditionalUrlMatcher (matcher_or_path route) condition))
              (without_path (properties route))) <$> routes !! i.
Proof. unfold conditionalRoutes. apply lookup_map. Qed.

(** X5. [conditionalRoutes] gives one route for each route it is handed, in
    the same order.  The new route has no path and has a matcher; its other
    properties are those of the old one, so that it refers to the same arrays
    of guards.  Whatever the old route matched, the new one matches nothing
    while the condition does not hold. *)
Theorem conditionalRoutes_only_when routes condition :
  length (conditionalRoutes routes condition) = length routes
  ∧ ∀ i route, routes !! i = Some route →
      ∃ route' m,
        conditionalRoutes routes condition !! i = Some route'
        ∧ matcher route' = Some m
        ∧ AppRouting.path (properties route') = None
        ∧ AppRouting.pathMatch (properties route') = AppRouting.pathMatch (properties route)
        ∧ AppRouting.loadChildren (properties route')
          = AppRouting.loadChildren (properties route)
        ∧ AppRouting.children (properties route') = AppRouting.children (properties route)
        ∧ AppRouting.canLoad (properties route') = AppRouting.canLoad (properties route)
        ∧ AppRouting.canActivate (properties route')
          = AppRouting.canActivate (properties route)
        ∧ ∀ app segments group r,
            condition app = false → m app segments group r = Returned None.
Proof.
  split; [unfold conditionalRoutes; apply length_map|].
  intros i route Hi. eexists. eexists.
  rewrite conditionalRoutes_lookup, Hi. simpl. split; [done|]. repeat split.
  intros app segments group r Hc. unfold buildConditionalUrlMatcher. by rewrite Hc.
Qed.

(** X6. While the condition holds, the matcher of a conditional route
    answers as the matcher the route had, even when the route also had a
    path; a route with a path only is matched on that path. *)
Theorem conditionalRoutes_delegates routes condition i route route' m' :
  routes !! i = Some route →
  conditionalRoutes routes condition !! i = Some route' →
  matcher route' = Some m' →
  ∀ app segments group r, condition app = true →
    m' app segments group r =
    match matcher route, AppRouting.path (properties route) with
    | Some m, _ => m app segments group r
    | None, Some path =>
        buildConditionalUrlMatcher (IsPath path) (λ _, true) app segments group r
    | None, None => Thrown TypeError
    end.
Proof.
  intros Hi. rewrite conditionalRoutes_lookup, Hi. simpl. intros [= <-]. simpl.
  intros [= <-] app segments group r Hc.
  unfold buildConditionalUrlMatcher, matcher_or_path. rewrite Hc. simpl.
  destruct (matcher route); [done|]. by destruct (AppRouting.path (properties route)).
Qed.

(** X7. A route that has neither a path nor a matcher becomes a route whose
    matcher throws a [TypeError] as soon as the condition holds: it splits a
    path that is [undefined]. *)
Theorem conditionalRoutes_without_path_throws routes condition i route :
  routes !! i = Some route →
  matcher route = None →
  AppRouting.path (properties route) = None →
  ∃ route' m,
    conditionalRoutes routes condition !! i = Some route'
    ∧ matcher route' = Some m
    ∧ ∀ app segments group r,
        m app segments group r =
        if condition app then Thrown TypeError else Returned None.
Proof.
  intros Hi Hm Hp. eexists. eexists.
  rewrite conditionalRoutes_lookup, Hi. simpl. split; [done|]. split; [done|].
  intros app segments group r.
  unfold buildConditionalUrlMatcher, matcher_or_path. rewrite Hm, Hp.
  by destruct (condition app).
Qed.

(** X8. Conditions nest as a conjunction: making the routes conditional on
    [c1] and the result conditional on [c2] gives routes with the same
    properties, whose matchers answer as those of the routes made conditional
    on [c1 && c2] at once. *)
Theorem conditionalRoutes_nested routes c1 c2 :
  Forall2 route_agrees
    (conditionalRoutes (conditionalRoutes routes c1) c2)
    (conditionalRoutes routes (λ app, c1 app && c2 app)).
Proof.
  induction routes as [|route routes IH]; simpl; constructor; [|exact IH].
  split; [done|]. simpl. intros app segments group r.
  unfold buildConditionalUrlMatcher at 1 3. unfold matcher_or_path at 1. simpl.
  destruct (c2 app); simpl.
  - unfold buildConditionalUrlMatcher. rewrite andb_true_r. done.
  - by rewrite andb_false_r.
Qed.

End Conditional.

Lemma conditionalRoutes_delegates_witness :
  let own : UrlMatcher bool := λ _ segments _ _, Returned (Some (MkUrlMatchResult segments None)) in
  let route := MkRouteConfig (Some own) (AppRouting.MkRoute (Some "never") None None [] None None) in
  ∃ route' m',
    conditionalRoutes [route] (λ logged : bool, logged) !! 0 = Some route'
    ∧ matcher route' = Some m'
    ∧ m' true [MkUrlSegment "any" []] (MkUrlSegmentGroup false) (properties route')
      = Returned (Some (MkUrlMatchResult [MkUrlSegment "any" []] None)).
Proof.
  eexists. eexists. split; [reflexivity|]. split; [reflexivity|].
  exact (conditionalRoutes_delegates
           [MkRouteConfig
              (Some (λ _ segments _ _, Returned (Some (MkUrlMatchResult segments None))))
              (AppRouting.MkRoute (Some "never") None None [] None None)]
           (λ logged : bool, logged) 0 _ _ _ eq_refl eq_refl eq_refl
           true [MkUrlSegment "any" []] (MkUrlSegmentGroup false) _ eq_refl).
Defined.

Lemma conditionalRoutes_without_path_throws_witness :
  let route : RouteConfig bool :=
    MkRouteConfig None (AppRouting.MkRoute None None (Some "LazyModule") [] None None) in
  ∃ route' m,
    conditionalRoutes [route] (λ logged : bool, logged) !! 0 = Some route'
    ∧ matcher route' = Some m
    ∧ m true [] (MkUrlSegmentGroup false) (properties route') = Thrown TypeError
    ∧ m false [] (MkUrlSegmentGroup false) (properties route') = Returned None.
Proof.
  destruct (conditionalRoutes_without_path_throws
              [MkRouteConfig None (AppRouting.MkRoute None None (Some "LazyModule") [] None None)]
              (λ logged : bool, logged) 0 _ eq_refl eq_refl eq_refl)
    as (route' & m & Hlookup & Hm & Hanswer).
  exists route', m. split; [exact Hlookup|]. split; [exact Hm|].
  split; apply Hanswer.
Defined.

End UrlMatchingFacts.

(** * Properties of the module routes *)

Module ModuleRoutesFacts.
Import ModuleRoutes.

Lemma resolveModuleRoutes_cons config configs :
  resolveModuleRoutes (Some (config :: configs)) =
  MkModuleRoutes
    (children (to_module_routes config) ++ children (resolveModuleRoutes (Some configs)))
    (siblings (to_module_routes config) ++ siblings (resolveModuleRoutes (Some configs))).
Proof. done. Qed.

(** X9. [resolveModuleRoutes] follows the order of the providers: what it
    resolves from two lists of configurations put end to end is what it
    resolves from the first followed by what it resolves from the second, for
    the children and for the siblings; without a provider both are empty. *)
Theorem resolveModuleRoutes_app configs1 configs2 :
  children (resolveModuleRoutes (Some (configs1 ++ configs2))) =
    children (resolveModuleRoutes (Some configs1))
    ++ children (resolveModuleRoutes (Some configs2))
  ∧ siblings (resolveModuleRoutes (Some (configs1 ++ configs2))) =
      siblings (resolveModuleRoutes (Some configs1))
      ++ siblings (resolveModuleRoutes (Some configs2))
  ∧ resolveModuleRoutes None = MkModuleRoutes [] [].
Proof.
  split; [|split; [|done]].
  - induction configs1 as [|c configs1 IH]; [done|].
    change ((c :: configs1) ++ configs2) with (c :: (configs1 ++ configs2)).
    rewrite !resolveModuleRoutes_cons. cbn [children siblings].
    by rewrite IH, app_assoc.
  - induction configs1 as [|c configs1 IH]; [done|].
    change ((c :: configs1) ++ configs2) with (c :: (configs1 ++ configs2)).
    rewrite !resolveModuleRoutes_cons. cbn [children siblings].
    by rewrite IH, app_assoc.
Qed.

(** X10. No route is lost and none is made up: the children and the siblings
    that [resolveModuleRoutes] returns are, together, the routes of all the
    configurations, each as often as it was contributed.  A configuration that
    is a plain array counts as siblings, and a missing [children] or
    [siblings] as empty. *)
Theorem resolveModuleRoutes_keeps_all configs :
  children (resolveModuleRoutes (Some configs)) ++ siblings (resolveModuleRoutes (Some configs))
    ≡ₚ concat (map contributed configs)
  ∧ (∀ r, r ∈ children (resolveModuleRoutes (Some configs)) ↔
          ∃ c s, PartialModuleRoutes (Some c) s ∈ configs ∧ r ∈ c)
  ∧ (∀ r, r ∈ siblings (resolveModuleRoutes (Some configs)) ↔
          (∃ l, RoutesArray l ∈ configs ∧ r ∈ l)
          ∨ (∃ c s, PartialModuleRoutes c (Some s) ∈ configs ∧ r ∈ s)).
Proof.
  split; [|split].
  - induction configs as [|c configs IH]; [done|].
    rewrite resolveModuleRoutes_cons. cbn [children siblings map concat].
    rewrite <- IH. unfold contributed.
    destruct c as [l|c s]; cbn [to_module_routes children siblings]; solve_Permutation.
  - intros r. induction configs as [|c configs IH].
    { split; [by intros ?%elem_of_nil|]. by intros (? & ? & ?%elem_of_nil & _). }
    rewrite resolveModuleRoutes_cons. cbn [children siblings].
    rewrite elem_of_app, IH. split.
    + intros [Hr|(c' & s' & Hin & Hr)].
      * destruct c as [l|[c'|] s']; simpl in Hr; try by apply elem_of_nil in Hr.
        exists c', s'. split; [left|done].
      * exists c', s'. split; [by right|done].
    + intros (c' & s' & Hin & Hr). apply elem_of_cons in Hin as [<-|Hin].
      * by left.
      * right. by exists c', s'.
  - intros r. induction configs as [|c configs IH].
    { split; [by intros ?%elem_of_nil|].
      intros [(? & ?%elem_of_nil & _)|(? & ? & ?%elem_of_nil & _)]; done. }
    rewrite resolveModuleRoutes_cons. cbn [children siblings].
    rewrite elem_of_app, IH. split.
    + intros [Hr|[(l & Hin & Hr)|(c' & s' & Hin & Hr)]].
      * destruct c as [l|c' [s'|]]; simpl in Hr.
        -- left. exists l. split; [left|done].
        -- right. exists c', s'. split; [left|done].
        -- by apply elem_of_nil in Hr.
      * left. exists l. split; [by right|done].
      * right. exists c', s'. split; [by right|done].
    + intros [(l & Hin & Hr)|(c' & s' & Hin & Hr)];
        apply elem_of_cons in Hin as [<-|Hin].
      * by left.
      * right. left. by exists l.
      * by left.
      * right. right. by exists c', s'.
Qed.

End ModuleRoutesFacts.

(** * The routing table when arrays of guards are shared *)

Module AppRoutingShared.
Import AppRouting AppRoutingFacts.

(** The guards of every route after the wrapper has run on [r]: those it had,
    then the guard once for each of the two lists of [r] that is the list
    looked at. *)
Lemma wrap_guards r h f' r' :
  well_formed h → r < length (routes h) →
  let h2 := or_new_array CanActivate r (or_new_array CanLoad r h) in
  is_Some (read CanLoad r h2) ∧ is_Some (read CanActivate r h2)
  ∧ guards_of (wrap r h) f' r' =
      guards_of h f' r'
      ++ (if decide (read f' r' h2 = read CanLoad r h2) then [CoreRedirectGuard] else [])
      ++ (if decide (read f' r' h2 = read CanActivate r h2) then [CoreRedirectGuard] else []).
Proof.
  intros Hwf Hr. unfold wrap.
  set (h1 := or_new_array CanLoad r h).
  set (h2 := or_new_array CanActivate r h1).
  set (h3 := push CanLoad r CoreRedirectGuard h2). simpl.
  assert (Hr1 : r < length (routes h1)).
  { subst h1. by rewrite (proj1 (or_new_array_routes CanLoad r h 0)). }
  assert (Hwf1 : well_formed h1) by by apply or_new_array_well_formed.
  assert (Hwf2 : well_formed h2) by by apply or_new_array_well_formed.
  assert (Hwf3 : well_formed h3) by by apply push_well_formed.
  assert (∃ a, read CanLoad r h2 = Some a) as [a Ha].
  { subst h2. rewrite or_new_array_read by done.
    rewrite decide_False by by intros [_ ?].
    subst h1. rewrite or_new_array_read by done. rewrite decide_True by done. by eexists. }
  assert (∃ b, read CanActivate r h2 = Some b) as [b Hb].
  { subst h2. rewrite or_new_array_read by done. rewrite decide_True by done. by eexists. }
  assert (Hb3 : read CanActivate r h3 = Some b) by (subst h3; by rewrite push_read).
  split; [by rewrite Ha|]. split; [by rewrite Hb|].
  rewrite (push_guards _ _ _ _ b) by done.
  subst h3. rewrite (push_guards _ _ _ _ a) by done. rewrite push_read, Ha, Hb.
  subst h2. rewrite or_new_array_guards by done.
  subst h1. rewrite or_new_array_guards by done. by rewrite <- app_assoc.
Qed.

Lemma wrap_grows r h :
  well_formed h → r < length (routes h) →
  well_formed (wrap r h)
  ∧ length (routes (wrap r h)) = length (routes h)
  ∧ ∀ r' f, ∃ k,
      guards_of (wrap r h) f r' = guards_of h f r' ++ replicate k CoreRedirectGuard
      ∧ (r' = r → 1 ≤ k).
Proof.
  intros Hwf Hr. split; [|split].
  - unfold wrap. do 2 apply push_well_formed.
    apply or_new_array_well_formed;
      [by rewrite (proj1 (or_new_array_routes CanLoad r h 0))|].
    by apply or_new_array_well_formed.
  - unfold wrap. rewrite !push_routes.
    rewrite (proj1 (or_new_array_routes CanActivate r _ 0)).
    by rewrite (proj1 (or_new_array_routes CanLoad r h 0)).
  - intros r' f. destruct (wrap_guards r h f r' Hwf Hr) as (_ & _ & ->).
    set (h2 := or_new_array CanActivate r (or_new_array CanLoad r h)).
    exists ((if decide (read f r' h2 = read CanLoad r h2) then 1 else 0)
            + (if decide (read f r' h2 = read CanActivate r h2) then 1 else 0)).
    split.
    + rewrite replicate_add. by repeat case_decide.
    + intros ->. destruct f.
      * rewrite decide_True by done. lia.
      * rewrite (decide_True (P := read CanActivate r h2 = read CanActivate r h2)) by done.
        lia.
Qed.

Lemma wrap_all_grows l h :
  well_formed h → Forall (λ r, r < length (routes h)) l →
  well_formed (wrap_all l h)
  ∧ length (routes (wrap_all l h)) = length (routes h)
  ∧ ∀ r f, ∃ k,
      guards_of (wrap_all l h) f r = guards_of h f r ++ replicate k CoreRedirectGuard
      ∧ (r ∈ l → 1 ≤ k).
Proof.
  revert h. induction l as [|r l IH]; intros h Hwf Hvalid.
  { simpl. split; [done|]. split; [done|]. intros r f. exists 0.
    split; [by rewrite app_nil_r|]. by intros ?%elem_of_nil. }
  apply Forall_cons in Hvalid as [Hr Hvalid].
  destruct (wrap_grows r h Hwf Hr) as (Hwf1 & Hlen1 & Hstep).
  change (wrap_all (r :: l) h) with (wrap_all l (wrap r h)).
  destruct (IH (wrap r h) Hwf1) as (Hwf' & Hlen' & Hrest); [by rewrite Hlen1|].
  split; [done|]. split; [by rewrite Hlen'|].
  intros r' f. destruct (Hstep r' f) as (k1 & Hk1 & Hone1).
  destruct (Hrest r' f) as (k2 & Hk2 & Hone2).
  exists (k1 + k2). split.
  - by rewrite Hk2, Hk1, replicate_add, app_assoc.
  - intros [->|Hin]%elem_of_cons.
    + specialize (Hone1 eq_refl). lia.
    + specialize (Hone2 Hin). lia.
Qed.



End AppRoutingShared.

Module AppRoutingTwice.
Import AppRouting AppRoutingFacts AppRoutingShared.



End AppRoutingTwice.

(** * Further properties of the event bus *)

Section Releasing.

(** X13. [off] never throws, whatever observer it belongs to.  It takes out
    of the subjects exactly the subscriptions the observer stands for and
    leaves every other subscription in place and in order; it creates and
    deletes no subject, and leaves the unique-event records, the payload
    objects and the past calls alone.  Calling it a second time changes
    nothing more. *)
Theorem off_releases_exactly o st :
  (off o st).1 = Returned tt
  ∧ (∀ e, observers_of (off o st).2 e =
          filter (λ ob, (e, sub_id ob) ∉ subscriptions o) (observers_of st e))
  ∧ (∀ e, is_Some (observables (off o st).2 !! e) ↔ is_Some (observables st !! e))
  ∧ uniqueEvents (off o st).2 = uniqueEvents st
  ∧ objects (off o st).2 = objects st
  ∧ calls (off o st).2 = calls st
  ∧ off o (off o st).2 = (Returned tt, (off o st).2).
Proof.
  destruct (off_eq o st) as (Hr & Hob & Hu & Hh & Hn & Hc & Hrep).
  split; [done|]. split; [apply observers_of_off|]. split.
  { intros e. rewrite Hob. by rewrite fmap_is_Some. }
  split; [done|]. split; [done|]. split; [done|].
  destruct (off_eq o (off o st).2) as (Hr' & Hob' & Hu' & Hh' & Hn' & Hc' & Hrep').
  destruct (off o (off o st).2) as [r st2]. simpl in *. subst r. f_equal.
  apply CoreEvents_eq; try done.
  apply map_eq. intros e. rewrite Hob', Hob.
  destruct (observables st !! e) as [[os]|]; simpl; [|done].
  unfold pruned. simpl. f_equal. f_equal.
  rewrite list_filter_filter. apply list_filter_iff. tauto.
Qed.

Lemma released_sublist n st st' :
  (∀ e, observers_of st' e `sublist_of` observers_of st e) →
  next_subscription st' = next_subscription st →
  released n st → released n st'.
Proof.
  intros Hsub Hn [Hlt H]. split; [by rewrite Hn|]. intros e.
  exact (sublist_Forall _ _ _ (Hsub e) (H e)).
Qed.

Lemma released_same n st st' :
  observables st' = observables st →
  next_subscription st' = next_subscription st →
  released n st → released n st'.
Proof.
  intros Ho Hn. apply released_sublist; [|done]. intros e. unfold observers_of. by rewrite Ho.
Qed.

Lemma released_on n e cb s st : released n st → released n (on e cb s st).2.
Proof.
  intros [Hlt H]. rewrite on_eq. destruct (replayed st e).
  { apply (released_same n st); [by destruct st..|by split]. }
  split; [simpl; lia|]. intros e'. simpl. rewrite observers_of_subscribed.
  case_decide; [|apply H]. apply Forall_app. split; [apply H|].
  constructor; [simpl; lia|constructor].
Qed.

Lemma released_run_op n o st : released n st → released n (run_op o st).
Proof.
  intros H. destruct o as [e cb s|es cb s|h|e d s|e d s|ob|l ob]; simpl.
  - by apply released_on.
  - apply onMultiple_preserves; [|done]. intros. by apply released_on.
  - apply (released_sublist n st); [|by destruct (off_eq h st) as (_&_&_&_&->&_)|done].
    intros e. rewrite observers_of_off. apply sublist_filter.
  - destruct (trigger_frame e d s st) as (_ & Hn & Hsub & _). by apply (released_sublist n st).
  - destruct (triggerUnique_frame e d s st) as (Hn & Hsub & _).
    by apply (released_sublist n st).
  - by apply (released_same n st).
  - by apply (released_same n st).
Qed.

Lemma released_run_ops n l st : released n st → released n (run_ops l st).
Proof.
  revert st. induction l as [|o l IH]; intros st H; simpl; [done|].
  apply IH. by apply released_run_op.
Qed.

(** X14. A subscription made by [on], which [on] makes when the test
    [this.uniqueEvents[eventName]] of the code is negative, and released by
    its [off] is gone for good: every subject has the observers it had before
    the [on], and whatever the application does afterwards, no [trigger] and
    no [triggerUnique], on any channel, calls through that subscription
    again. *)
Theorem off_stops_delivery e cb s st later e' d sd :
  reachable st →
  get (uniqueEvents st) e = Undefined →
  let n := next_subscription st in
  let st1 := (on e cb s st).2 in
  let st2 := (off (SubjectObserver e n) st1).2 in
  let st3 := run_ops later st2 in
  (on e cb s st).1 = Returned (SubjectObserver e n)
  ∧ (∀ e'', observers_of st2 e'' = observers_of st e'')
  ∧ times_called (Some n) (calls_since st3 (trigger e' d sd st3).2) = 0
  ∧ times_called (Some n) (calls_since st3 (triggerUnique e' d sd st3).2) = 0.
Proof.
  intros Hreach Hu n st1 st2 st3.
  pose proof (reachable_ordered st Hreach) as Hord.
  pose proof (on_subscribes e cb s st Hu) as Hon. fold n in Hon.
  assert (Hobs : ∀ e'', observers_of st2 e'' = observers_of st e'').
  { intros e''. subst st2 st1. rewrite observers_of_off, Hon. simpl.
    rewrite observers_of_subscribed. destruct (Hord e'') as [_ Hb].
    assert (Hold : Forall (λ ob, (e'', sub_id ob) ∉ [(e, n)]) (observers_of st e'')).
    { eapply Forall_impl; [done|]. intros o Ho Hin.
      apply list_elem_of_singleton in Hin. injection Hin as _ Hid.
      simpl in Ho. subst n. lia. }
    case_decide as Hd; [|by apply filter_all].
    subst e''. rewrite filter_app, (filter_all _ _ Hold).
    rewrite filter_cons_False; [by rewrite app_nil_r|].
    simpl. intros H. apply H. by left. }
  assert (Hrel : released n st3).
  { apply released_run_ops. split.
    - subst st2 st1. destruct (off_eq (SubjectObserver e n) (on e cb s st).2)
        as (_ & _ & _ & _ & -> & _). rewrite Hon. simpl. lia.
    - intros e''. rewrite Hobs. destruct (Hord e'') as [_ Hb].
      eapply Forall_impl; [done|]. intros o Ho. simpl in Ho. lia. }
  split; [by rewrite Hon|]. split; [done|].
  destruct Hrel as [_ Hrel]. split.
  - destruct (trigger_called e' d sd st3) as (called & -> & Hsub & _).
    apply times_called_absent. exact (sublist_Forall _ _ _ Hsub (Hrel e')).
  - destruct (triggerUnique_called e' d sd st3) as (called & -> & Hsub & _).
    apply times_called_absent. exact (sublist_Forall _ _ _ Hsub (Hrel e')).
Qed.

End Releasing.

Lemma off_stops_delivery_witness :
  let cb := Callback 1 false in
  let st2 := (off (SubjectObserver "login" 0) (on "login" cb None initial).2).2 in
  let st3 := run_ops [OpOn "login" (Callback 2 false) None] st2 in
  reachable initial
  ∧ get (uniqueEvents initial) "login" = Undefined
  ∧ times_called (Some 0) (calls_since st3 (trigger "login" VNull None st3).2) = 0
  ∧ calls_since st3 (trigger "login" VNull None st3).2 = [Call (Some 1) 2 VNull].
Proof.
  split; [apply reachable_initial|]. split; [reflexivity|]. split; [|reflexivity].
  destruct (off_stops_delivery "login" (Callback 1 false) None initial
              [OpOn "login" (Callback 2 false) None] "login" VNull None
              reachable_initial eq_refl) as (_ & _ & H & _).
  exact H.
Defined.

Section Channels.

Lemma channels_apart_sublist st st' :
  (∀ e, observers_of st' e `sublist_of` observers_of st e) →
  channels_apart st → channels_apart st'.
Proof.
  intros Hsub H e e' o o' Ho Ho'. apply (H e e' o o').
  - by apply (sublist_subseteq _ _ (Hsub e)).
  - by apply (sublist_subseteq _ _ (Hsub e')).
Qed.

Lemma channels_apart_same st st' :
  observables st' = observables st → channels_apart st → channels_apart st'.
Proof.
  intros Ho. apply channels_apart_sublist. intros e. unfold observers_of. by rewrite Ho.
Qed.

Lemma channels_apart_on e cb s st :
  ordered st → channels_apart st → channels_apart (on e cb s st).2.
Proof.
  intros Hord H. rewrite on_eq. destruct (replayed st e).
  { apply (channels_apart_same st); [by destruct st|done]. }
  intros e1 e2 o1 o2. simpl. rewrite !observers_of_subscribed.
  assert (Hold : ∀ e' o, o ∈ observers_of st e' → sub_id o < next_subscription st).
  { intros e' o Ho. destruct (Hord e') as [_ Hb]. rewrite Forall_forall in Hb. by apply Hb. }
  case_decide as H1; case_decide as H2; subst;
    rewrite ?elem_of_app, ?list_elem_of_singleton.
  - done.
  - intros [Ho1| ->] Ho2 Hid; [by apply (H _ _ _ _ Ho1 Ho2)|].
    apply Hold in Ho2. simpl in Hid. lia.
  - intros Ho1 [Ho2| ->] Hid; [by apply (H _ _ _ _ Ho1 Ho2)|].
    apply Hold in Ho1. simpl in Hid. lia.
  - apply H.
Qed.

Lemma channels_apart_run_op o st :
  ordered st → channels_apart st → channels_apart (run_op o st).
Proof.
  intros Hord H. destruct o as [e cb s|es cb s|h|e d s|e d s|ob|l ob]; simpl.
  - by apply channels_apart_on.
  - apply (onMultiple_preserves (λ st, ordered st ∧ channels_apart st)); [|done].
    intros e st' [Ho' H']. split; [by apply ordered_on|by apply channels_apart_on].
  - apply (channels_apart_sublist st); [|done].
    intros e. rewrite observers_of_off. apply sublist_filter.
  - destruct (trigger_frame e d s st) as (_ & _ & Hsub & _).
    by apply (channels_apart_sublist st).
  - destruct (triggerUnique_frame e d s st) as (_ & Hsub & _).
    by apply (channels_apart_sublist st).
  - by apply (channels_apart_same st).
  - by apply (channels_apart_same st).
Qed.

Lemma reachable_channels_apart st : reachable st → channels_apart st.
Proof.
  induction 1 as [|st o Hreach IH].
  - intros e e' o o'. unfold observers_of. simpl. rewrite lookup_empty. simpl.
    by intros ?%elem_of_nil.
  - apply channels_apart_run_op; [by apply reachable_ordered|done].
Qed.

(** X15. Channels do not leak into one another: the calls that [trigger]
    and [triggerUnique] make on a channel are calls of observers registered on
    that channel, with the payload of the trigger, and an observer registered
    on another channel is not called. *)
Theorem trigger_stays_on_channel e d s st :
  reachable st →
  let triggered := calls_since st (trigger e d s st).2 in
  let triggered_once := calls_since st (triggerUnique e d s st).2 in
  (∀ c, c ∈ triggered ∨ c ∈ triggered_once →
        ∃ o, o ∈ observers_of st e ∧ c = call_of d o)
  ∧ (∀ e' o', e' ≠ e → o' ∈ observers_of st e' →
       times_called (Some (sub_id o')) triggered = 0
       ∧ times_called (Some (sub_id o')) triggered_once = 0).
Proof.
  intros Hreach triggered triggered_once.
  pose proof (reachable_channels_apart st Hreach) as Hapart.
  assert (∃ called, triggered = call_of d <$> called
                    ∧ called `sublist_of` observers_of st e) as (l1 & H1 & Hs1).
  { destruct (trigger_called e d s st) as (called & Hc & Hsub & _). by exists called. }
  assert (∃ called, triggered_once = call_of d <$> called
                    ∧ called `sublist_of` observers_of st e) as (l2 & H2 & Hs2).
  { destruct (triggerUnique_called e d s st) as (called & Hc & Hsub & _). by exists called. }
  rewrite H1, H2. split.
  - intros c [Hc|Hc]; apply list_elem_of_fmap in Hc as (o & -> & Ho); exists o;
      (split; [|done]).
    + by apply (sublist_subseteq _ _ Hs1).
    + by apply (sublist_subseteq _ _ Hs2).
  - intros e' o' Hne Ho'.
    assert (Habsent : Forall (λ o, sub_id o ≠ sub_id o') (observers_of st e)).
    { apply Forall_forall. intros o Ho Hid. apply Hne. symmetry.
      by apply (Hapart e e' o o'). }
    split; apply times_called_absent.
    + exact (sublist_Forall _ _ _ Hs1 Habsent).
    + exact (sublist_Forall _ _ _ Hs2 Habsent).
Qed.

Lemma trigger_stays_on_channel_witness :
  let st := run_ops [OpOn "login" (Callback 1 false) None;
                     OpOn "logout" (Callback 2 false) None] initial in
  reachable st
  ∧ MkSubscriber 1 (Callback 2 false) None ∈ observers_of st "logout"
  ∧ times_called (Some 1) (calls_since st (trigger "login" VNull None st).2) = 0.
Proof.
  assert (reachable (run_ops [OpOn "login" (Callback 1 false) None;
                              OpOn "logout" (Callback 2 false) None] initial)) as Hr
    by apply reachable_run_ops, reachable_initial.
  split; [exact Hr|].
  assert (MkSubscriber 1 (Callback 2 false) None
            ∈ observers_of (run_ops [OpOn "login" (Callback 1 false) None;
                                     OpOn "logout" (Callback 2 false) None] initial)
                "logout") as Ho by (vm_compute; left).
  split; [exact Ho|].
  destruct (trigger_stays_on_channel "login" VNull None _ Hr) as (_ & H).
  exact (proj1 (H "logout" _ ltac:(discriminate) Ho)).
Defined.

End Channels.

Section Payloads.

(** X16. When a site is given and the payload is an object, [trigger] and
    [triggerUnique] write the site into the object the caller passed, if it
    can take it: its [siteId] is replaced, its other properties and every
    other object stay.  If it cannot, as when it is frozen, they throw a
    [TypeError] and change nothing; [triggerUnique] then stores no record.
    [trigger] gets to the assignment whenever [this.observables[eventName]]
    is truthy, also for what [Object.prototype] lends, and [triggerUnique]
    whenever [this.uniqueEvents[eventName]] is not; in the other cases, and
    when no site is given, no object is touched. *)
Theorem site_written_into_payload e l o s st :
  objects st !! l = Some o →
  truthy_str (Some s) = true →
  let tagged := <[l := Object (Some s) (obj_fields o) (obj_integrity o)]> (objects st) in
  (can_set_siteId o = true →
     (get (observables st) e ≠ Undefined →
        objects (trigger e (VRef l) (Some s) st).2 = tagged)
     ∧ (get (uniqueEvents st) e = Undefined →
          objects (triggerUnique e (VRef l) (Some s) st).2 = tagged))
  ∧ (can_set_siteId o = false →
     (get (observables st) e ≠ Undefined →
        trigger e (VRef l) (Some s) st = (Thrown TypeError, st))
     ∧ (get (uniqueEvents st) e = Undefined →
          triggerUnique e (VRef l) (Some s) st = (Thrown TypeError, st)))
  ∧ (get (observables st) e = Undefined →
       objects (trigger e (VRef l) (Some s) st).2 = objects st)
  ∧ (get (uniqueEvents st) e ≠ Undefined →
       objects (triggerUnique e (VRef l) (Some s) st).2 = objects st)
  ∧ (∀ d none, truthy_str none = false →
       objects (trigger e d none st).2 = objects st
       ∧ objects (triggerUnique e d none st).2 = objects st).
Proof.
  intros Hl Hs tagged.
  assert (Hm : merged (VRef l) (Some s) (objects st) = tagged).
  { unfold merged. rewrite Hs. simpl. unfold write_siteId. by rewrite Hl. }
  assert (Ht : takes_site (objects st) (VRef l) (Some s) = can_set_siteId o).
  { unfold takes_site. rewrite Hs. simpl. by rewrite Hl. }
  split; [|split; [|split; [|split]]].
  - intros Hcan. rewrite Hcan in Ht. split.
    + intros H. rewrite trigger_objects, Ht, Hm. by destruct (get (observables st) e).
    + intros H. by rewrite triggerUnique_objects, H, Ht, Hm.
  - intros Hcan. rewrite Hcan in Ht. split.
    + intros H. rewrite trigger_eq, Ht. by destruct (get (observables st) e).
    + intros H. by rewrite triggerUnique_eq, H, Ht.
  - intros H. by rewrite trigger_objects, H.
  - intros H. rewrite triggerUnique_objects. by destruct (get (uniqueEvents st) e).
  - intros d none Hnone.
    assert (Hn : takes_site (objects st) d none = true)
      by (unfold takes_site; by rewrite Hnone).
    assert (Hsame : merged d none (objects st) = objects st)
      by (unfold merged; by rewrite Hnone).
    rewrite trigger_objects, triggerUnique_objects, Hn, Hsame.
    split; [by destruct (get (observables st) e)|by destruct (get (uniqueEvents st) e)].
Qed.

Lemma site_written_into_payload_witness :
  let st := run_ops [OpNewObject (Object (Some "site1") [("courseId", VPrim (PNum 5))] Sealed)]
                    initial in
  objects st !! 0 = Some (Object (Some "site1") [("courseId", VPrim (PNum 5))] Sealed)
  ∧ objects (trigger "course_status_changed" (VRef 0) (Some "site2") st).2 = objects st
  ∧ objects (trigger "toString" (VRef 0) (Some "site2") st).2
    = [Object (Some "site2") [("courseId", VPrim (PNum 5))] Sealed]
  ∧ objects (triggerUnique "course_status_changed" (VRef 0) (Some "site2") st).2
    = [Object (Some "site2") [("courseId", VPrim (PNum 5))] Sealed].
Proof.
  split; [reflexivity|].
  destruct (site_written_into_payload "course_status_changed" 0
              (Object (Some "site1") [("courseId", VPrim (PNum 5))] Sealed) "site2"
              (run_ops [OpNewObject (Object (Some "site1") [("courseId", VPrim (PNum 5))] Sealed)]
                       initial) eq_refl eq_refl) as (Hcan & _ & Hnone & _).
  destruct (site_written_into_payload "toString" 0
              (Object (Some "site1") [("courseId", VPrim (PNum 5))] Sealed) "site2"
              (run_ops [OpNewObject (Object (Some "site1") [("courseId", VPrim (PNum 5))] Sealed)]
                       initial) eq_refl eq_refl) as (Hcan' & _).
  split; [exact (Hnone eq_refl)|].
  split; [exact (proj1 (Hcan' eq_refl) ltac:(discriminate))|].
  exact (proj2 (Hcan eq_refl) eq_refl).
Defined.

End Payloads.

Section Finalized.

Lemma finalized_run_op e u st0 o st :
  uniqueEvents st !! e = Some u ∧ observers_of st e `sublist_of` observers_of st0 e →
  uniqueEvents (run_op o st) !! e = Some u
  ∧ observers_of (run_op o st) e `sublist_of` observers_of st0 e.
Proof.
  intros [Hu Hsub]. split; [by apply unique_kept_run_op|].
  assert (Hon : ∀ e' cb s st',
    uniqueEvents st' !! e = Some u ∧ observers_of st' e `sublist_of` observers_of st0 e →
    uniqueEvents (on e' cb s st').2 !! e = Some u
    ∧ observers_of (on e' cb s st').2 e `sublist_of` observers_of st0 e).
  { intros e' cb s st' [Hu' Hsub']. rewrite on_eq.
    destruct (replayed st' e') eqn:He'.
    - split; by destruct st'.
    - split; [by destruct st'|]. simpl. rewrite observers_of_subscribed.
      rewrite decide_False; [done|]. intros ->.
      rewrite (replayed_Some _ _ _ Hu') in He'. done. }
  destruct o as [e' cb s|es cb s|h|e' d s|e' d s|ob|l ob]; simpl.
  - by apply Hon.
  - apply (onMultiple_preserves
             (λ st', uniqueEvents st' !! e = Some u
                     ∧ observers_of st' e `sublist_of` observers_of st0 e)); [|done].
    intros e' st'. apply Hon.
  - rewrite observers_of_off. etrans; [apply sublist_filter|done].
  - destruct (trigger_frame e' d s st) as (_ & _ & Hs & _). etrans; [apply Hs|done].
  - destruct (triggerUnique_frame e' d s st) as (_ & Hs & _). etrans; [apply Hs|done].
  - done.
  - done.
Qed.

Lemma finalized_run_ops e u st0 later st :
  uniqueEvents st !! e = Some u ∧ observers_of st e `sublist_of` observers_of st0 e →
  uniqueEvents (run_ops later st) !! e = Some u
  ∧ observers_of (run_ops later st) e `sublist_of` observers_of st0 e.
Proof.
  revert st. induction later as [|o later IH]; intros st Hst; simpl; [done|].
  apply IH. by apply finalized_run_op.
Qed.

(** X17. A channel that has its unique-event record takes no new
    subscribers: whatever the application does afterwards, the observers of
    the channel are some of those it had when the record was there, in their
    order. *)
Theorem finalized_channel_takes_no_subscribers e u st later :
  uniqueEvents st !! e = Some u →
  observers_of (run_ops later st) e `sublist_of` observers_of st e
  ∧ length (observers_of (run_ops later st) e) ≤ length (observers_of st e).
Proof.
  intros Hu.
  destruct (finalized_run_ops e u st later st) as [_ H]; [by split|].
  split; [done|]. by apply sublist_length.
Qed.

Lemma finalized_channel_takes_no_subscribers_witness :
  let st := run_ops [OpOn "site_plugins_loaded" (Callback 1 false) None;
                     OpTriggerUnique "site_plugins_loaded" VNull None] initial in
  let later := [OpOn "site_plugins_loaded" (Callback 2 false) None;
                OpOnMultiple ["login"; "site_plugins_loaded"] (Callback 3 false) None] in
  uniqueEvents st !! "site_plugins_loaded" = Some (MkUniqueEvent VNull)
  ∧ observers_of (run_ops later st) "site_plugins_loaded"
      `sublist_of` [MkSubscriber 0 (Callback 1 false) None].
Proof.
  split; [reflexivity|].
  exact (proj1 (finalized_channel_takes_no_subscribers "site_plugins_loaded"
                  (MkUniqueEvent VNull)
                  (run_ops [OpOn "site_plugins_loaded" (Callback 1 false) None;
                            OpTriggerUnique "site_plugins_loaded" VNull None] initial)
                  [OpOn "site_plugins_loaded" (Callback 2 false) None;
                   OpOnMultiple ["login"; "site_plugins_loaded"] (Callback 3 false) None]
                  eq_refl)).
Defined.

(** X18. A [TypeError] is the only exception that leaves [trigger] and
    [triggerUnique], and it comes from the bus itself, before any observer
    is called: from [Object.assign], when a site is given and the payload
    cannot take it, or, for [trigger], from the call of [next] on what
    [Object.prototype] lends.  What an observer throws while the payload is
    delivered, its callback's exception or the [TypeError] of the arrow
    function that reads the site of [undefined] or [null], does not leave
    the call: it is reported to the host, the subscription of that observer
    is ended, and the other observers are called all the same. *)
Theorem trigger_exceptions e d s st :
  (∀ err, (trigger e d s st).1 = Thrown err →
     err = TypeError
     ∧ (takes_site (objects st) d s = false ∨ get (observables st) e = Inherited)
     ∧ calls (trigger e d s st).2 = calls st
     ∧ observables (trigger e d s st).2 = observables st)
  ∧ (∀ err, (triggerUnique e d s st).1 = Thrown err →
       err = TypeError
       ∧ takes_site (objects st) d s = false
       ∧ get (uniqueEvents st) e = Undefined
       ∧ (triggerUnique e d s st).2 = st)
  ∧ (is_Some (observables st !! e) → takes_site (objects st) d s = true →
       let st' := (trigger e d s st).2 in
       let thrown := filter (λ o, is_Some (failure (objects st') d o)) (observers_of st e) in
       (trigger e d s st).1 = Returned tt
       ∧ calls_since st st' =
           call_of d <$> filter (λ o, accepts (objects st') o d = true) (observers_of st e)
       ∧ reported st' = reported st ++ omap (failure (objects st') d) (observers_of st e)
       ∧ observers_of st' e =
           filter (λ o, sub_id o ∉ sub_id <$> thrown) (observers_of st e)).
Proof.
  split; [|split].
  - intros err. rewrite trigger_eq.
    destruct (get (observables st) e) as [subj| |] eqn:Hs; [| |done].
    + destruct (takes_site (objects st) d s); [done|]. intros [= <-]. by auto.
    + intros [= <-]. split; [done|]. split; [by right|].
      destruct (takes_site (objects st) d s); by destruct st.
  - intros err. rewrite triggerUnique_eq.
    destruct (get (uniqueEvents st) e) as [u| |] eqn:Hu; [done|done|].
    destruct (takes_site (objects st) d s); [done|]. by intros [= <-].
  - intros [subj Hs] Ht st' thrown. apply get_Own in Hs.
    assert (Hr : (trigger e d s st).1 = Returned tt).
    { apply trigger_returns. right. by rewrite Hs. }
    split; [done|]. split.
    { apply calls_since_app. subst st'. by rewrite trigger_calls, Hr. }
    subst thrown st'. rewrite trigger_eq, Hs, Ht. simpl.
    split; [by destruct st|].
    by rewrite observers_of_delivered, decide_True by done.
Qed.

Lemma trigger_exceptions_witness :
  let st := run_ops [OpOn "login" (Callback 1 true) None;
                     OpOn "login" (Callback 2 false) (Some "site1");
                     OpOn "login" (Callback 3 false) None] initial in
  (trigger "login" VNull None st).1 = Returned tt
  ∧ calls_since st (trigger "login" VNull None st).2
    = [Call (Some 0) 1 VNull; Call (Some 2) 3 VNull]
  ∧ reported (trigger "login" VNull None st).2 = [CallbackThrew 1; TypeError]
  ∧ observers_of (trigger "login" VNull None st).2 "login"
    = [MkSubscriber 2 (Callback 3 false) None]
  ∧ ∀ err, (trigger "toString" VNull None st).1 = Thrown err → err = TypeError.
Proof.
  pose proof (trigger_exceptions "login" VNull None
                (run_ops [OpOn "login" (Callback 1 true) None;
                          OpOn "login" (Callback 2 false) (Some "site1");
                          OpOn "login" (Callback 3 false) None] initial))
    as (_ & _ & Hdelivery).
  destruct Hdelivery as (Hr & Hc & Hrep & Hos); [vm_compute; by eexists|reflexivity|].
  split; [exact Hr|]. split; [exact Hc|]. split; [exact Hrep|]. split; [exact Hos|].
  intros err Herr.
  exact (proj1 (proj1 (trigger_exceptions "toString" VNull None _) err Herr)).
Defined.

End Finalized.

(** * Counting the guards appended to a shared array *)

Module AppRoutingCounting.
Import AppRouting AppRoutingFacts AppRoutingUses.

Section Step.

Context (r : nat) (h : store).
Hypothesis Hwf : well_formed h.
Hypothesis Hr : r < length (routes h).

(** The arrays the two lists of [r] are after the two [??]. *)
Let a_load := default (length (arrays h)) (read CanLoad r h).
Let a_activate :=
  default (length (arrays (or_new_array CanLoad r h))) (read CanActivate r h).

Lemma wrap_read f' r' :
  read f' r' (wrap r h) =
  if decide (r = r' ∧ CanActivate = f') then Some a_activate
  else if decide (r = r' ∧ CanLoad = f') then Some a_load
  else read f' r' h.
Proof.
  unfold wrap. rewrite !push_read.
  rewrite or_new_array_read
    by by rewrite (proj1 (or_new_array_routes CanLoad r h 0)).
  rewrite !or_new_array_read by done.
  rewrite (decide_False (P := r = r ∧ CanLoad = CanActivate)) by by intros [_ ?].
  done.
Qed.

Lemma fresh_or_old f a :
  a < length (arrays h) →
  default (length (arrays h)) (read f r h) = a ↔ read f r h = Some a.
Proof.
  intros Ha. destruct (read f r h) as [a'|]; simpl.
  - split; [by intros ->|by intros [= ->]].
  - split; [lia|done].
Qed.

Lemma fresh_or_old_activate a :
  a < length (arrays h) → a_activate = a ↔ read CanActivate r h = Some a.
Proof.
  intros Ha. subst a_activate. rewrite or_new_array_arrays, length_app.
  destruct (read CanActivate r h) as [a'|]; simpl.
  - split; [by intros ->|by intros [= ->]].
  - split; [lia|done].
Qed.

(** A list that was an array of the store before is one after. *)
Lemma wrap_read_old f' r' a :
  a < length (arrays h) →
  read f' r' (wrap r h) = Some a ↔ read f' r' h = Some a.
Proof.
  intros Ha. rewrite wrap_read. case_decide as H1; [|case_decide as H2]; [| |done].
  - destruct H1 as [<- <-]. rewrite <- (fresh_or_old_activate a Ha).
    split; [by intros [= ->]|by intros ->].
  - destruct H2 as [<- <-]. rewrite <- (fresh_or_old CanLoad a Ha).
    subst a_load. split; [by intros [= ->]|by intros ->].
Qed.

(** The wrapper appends the guard to an array once for each of the two lists
    of its route that is this array. *)
Lemma wrap_array a :
  a < length (arrays h) →
  arrays (wrap r h) !! a =
  (λ l, l ++ replicate (uses_by h a r) CoreRedirectGuard) <$> arrays h !! a.
Proof.
  intros Ha. unfold wrap.
  set (h1 := or_new_array CanLoad r h).
  set (h2 := or_new_array CanActivate r h1).
  set (h3 := push CanLoad r CoreRedirectGuard h2).
  assert (Hr1 : r < length (routes h1)).
  { subst h1. by rewrite (proj1 (or_new_array_routes CanLoad r h 0)). }
  assert (Ha2 : read CanLoad r h2 = Some a_load).
  { subst h2. rewrite or_new_array_read by done.
    rewrite decide_False by by intros [_ ?].
    subst h1. rewrite or_new_array_read by done. by rewrite decide_True. }
  assert (Hb3 : read CanActivate r h3 = Some a_activate).
  { subst h3. rewrite push_read. subst h2. rewrite or_new_array_read by done.
    rewrite decide_True by done. subst h1. rewrite or_new_array_read by done.
    by rewrite decide_False by by intros [_ ?]. }
  rewrite (push_arrays _ _ _ _ _ Hb3). subst h3.
  rewrite (push_arrays _ _ _ _ _ Ha2).
  assert (Harr : arrays h2 !! a = arrays h !! a).
  { subst h2. rewrite or_new_array_arrays.
    rewrite lookup_app_l
      by (subst h1; rewrite or_new_array_arrays, length_app; lia).
    subst h1. by rewrite or_new_array_arrays, lookup_app_l. }
  pose proof (fresh_or_old CanLoad a Ha) as Hl. fold a_load in Hl.
  pose proof (fresh_or_old_activate a Ha) as Hact.
  unfold uses_by.
  destruct (lookup_lt_is_Some_2 (arrays h) a Ha) as [l Hlook].
  rewrite Hlook in Harr |- *. simpl.
  destruct (decide (a_load = a)) as [El|El];
    destruct (decide (a_activate = a)) as [Ea|Ea];
    rewrite ?El, ?Ea;
    rewrite ?list_lookup_alter_eq, ?list_lookup_alter_ne by done;
    rewrite ?list_lookup_alter_eq, ?list_lookup_alter_ne by done;
    rewrite Harr; simpl.
  - rewrite !decide_True by tauto. simpl. by rewrite <- app_assoc.
  - rewrite decide_True, decide_False by tauto. simpl. done.
  - rewrite decide_False, decide_True by tauto. simpl. done.
  - rewrite !decide_False by tauto. simpl. by rewrite app_nil_r.
Qed.

End Step.

Lemma uses_by_wrap r h a r' :
  well_formed h → r < length (routes h) → a < length (arrays h) →
  uses_by (wrap r h) a r' = uses_by h a r'.
Proof.
  intros Hwf Hr Ha. unfold uses_by.
  pose proof (wrap_read_old r h Hr CanLoad r' a Ha) as H1.
  pose proof (wrap_read_old r h Hr CanActivate r' a Ha) as H2.
  repeat case_decide; tauto.
Qed.

Lemma wrap_all_array l h a :
  well_formed h → Forall (λ r, r < length (routes h)) l → a < length (arrays h) →
  arrays (wrap_all l h) !! a =
  (λ g, g ++ replicate (uses h l a) CoreRedirectGuard) <$> arrays h !! a.
Proof.
  revert h. induction l as [|r l IH]; intros h Hwf Hvalid Ha.
  { unfold uses. simpl. destruct (arrays h !! a); simpl; [|done]. by rewrite app_nil_r. }
  apply Forall_cons in Hvalid as [Hr Hvalid].
  destruct (AppRoutingShared.wrap_grows r h Hwf Hr) as (Hwf1 & Hlen1 & _).
  change (wrap_all (r :: l) h) with (wrap_all l (wrap r h)).
  assert (Ha1 : a < length (arrays (wrap r h))).
  { unfold wrap. rewrite !push_length, !or_new_array_arrays, !length_app. lia. }
  rewrite IH; [|done|by rewrite Hlen1|done].
  rewrite (wrap_array r h Hr a Ha).
  assert (uses (wrap r h) l a = uses h l a) as ->.
  { unfold uses. f_equal. apply list_fmap_ext. intros _ r' _.
    by apply uses_by_wrap. }
  destruct (arrays h !! a) as [g|]; simpl; [|done].
  unfold uses. rewrite fmap_cons. simpl. by rewrite replicate_add, app_assoc.
Qed.



End AppRoutingCounting.

(** * Conditional copies of a route in the routing table *)

Module ConditionalCopies.
Import AppRouting AppRoutingUses UrlMatching.



End ConditionalCopies.

(** * Channel names and subscriptions left behind *)

Section Names.

(** X21. The channel names that the class declares are pairwise distinct, so
    that in any state the bus can reach a trigger on one declared channel
    calls no observer of another declared channel. *)
Theorem event_names_distinct :
  NoDup event_names
  ∧ ∀ i j a b st d s o,
      event_names !! i = Some a → event_names !! j = Some b → i ≠ j →
      reachable st → o ∈ observers_of st b →
      a ≠ b
      ∧ times_called (Some (sub_id o)) (calls_since st (trigger a d s st).2) = 0.
Proof.
  assert (NoDup event_names) as Hnd by (apply (bool_decide_unpack _); by vm_compute).
  split; [done|].
  intros i j a b st d s o Hi Hj Hij Hreach Ho.
  assert (a ≠ b) as Hab.
  { intros <-. apply Hij. by apply (NoDup_lookup _ _ _ a Hnd). }
  split; [done|].
  destruct (trigger_called a d s st) as (called & -> & Hsub & _).
  apply times_called_absent. eapply sublist_Forall; [done|].
  apply Forall_forall. intros o' Ho' Hid. apply Hab.
  by apply (reachable_channels_apart st Hreach a b o' o).
Qed.

Lemma event_names_distinct_witness :
  let st := run_ops [OpOn "logout" (Callback 2 false) None] initial in
  reachable st
  ∧ event_names !! 4 = Some "login" ∧ event_names !! 5 = Some "logout"
  ∧ MkSubscriber 0 (Callback 2 false) None ∈ observers_of st "logout"
  ∧ times_called (Some 0) (calls_since st (trigger "login" VNull None st).2) = 0.
Proof.
  assert (reachable (run_ops [OpOn "logout" (Callback 2 false) None] initial)) as Hr
    by apply reachable_run_ops, reachable_initial.
  assert (MkSubscriber 0 (Callback 2 false) None
            ∈ observers_of (run_ops [OpOn "logout" (Callback 2 false) None] initial)
                "logout") as Ho by (vm_compute; left).
  split; [exact Hr|]. split; [reflexivity|]. split; [reflexivity|]. split; [exact Ho|].
  exact (proj2 (proj2 event_names_distinct 4 5 "login" "logout" _ VNull None _
                  eq_refl eq_refl ltac:(lia) Hr Ho)).
Defined.

(** None of the declared names is a property of [Object.prototype]. *)
Lemma event_names_not_inherited : Forall (λ e, inherited e = false) event_names.
Proof. apply (bool_decide_unpack _). by vm_compute. Qed.

Lemma onMultiple_leaves_cons name names cb s st :
  get (uniqueEvents st) name = Undefined →
  onMultiple (name :: names) cb s st =
  match onMultiple names cb s (subscribed name cb s st) with
  | (Returned (MultipleObserver hs), st') =>
      (Returned (MultipleObserver (SubjectObserver name (next_subscription st) :: hs)), st')
  | (Returned h, st') => (Returned h, st')
  | (Thrown err, st') => (Thrown err, st')
  end.
Proof.
  intros Hu. rewrite !onMultiple_eq. simpl. rewrite (on_subscribes _ _ _ _ Hu).
  by destruct (on_independently names cb s (subscribed name cb s st)) as [[hs|err] st'].
Qed.

(** X22. When [onMultiple] meets a channel on which [on] calls the callback
    at once (a channel with a unique-event record, or one whose name is a
    property of [Object.prototype]) and the callback throws, [onMultiple]
    throws that exception and returns no observer; the subscriptions it had
    made for the names before that channel, names for which the test
    [this.uniqueEvents[eventName]] of the code is negative, stay in their
    subjects, one for each occurrence of a name, and the names after it are
    not subscribed. *)
Theorem onMultiple_throw_leaves_subscriptions before after name v cb s st :
  (∀ x, x ∈ before → get (uniqueEvents st) x = Undefined) →
  replayed st name = Some v →
  cb_throws cb = true →
  let outcome := onMultiple (before ++ name :: after) cb s st in
  outcome.1 = Thrown (CallbackThrew (cb_id cb))
  ∧ calls outcome.2 = calls st ++ [Call None (cb_id cb) v]
  ∧ next_subscription outcome.2 = next_subscription st + length before
  ∧ ∀ e, length (observers_of outcome.2 e)
         = length (observers_of st e) + length (filter (λ x, x = e) before).
Proof.
  revert st. induction before as [|x before IH]; intros st Hbefore Hu Hcb; simpl.
  - rewrite onMultiple_eq. simpl. rewrite on_eq, Hu, Hcb. simpl.
    split; [done|]. split; [done|]. split; [lia|]. intros e.
    unfold observers_of. simpl. lia.
  - assert (Hx : get (uniqueEvents st) x = Undefined) by (apply Hbefore; left).
    rewrite (onMultiple_leaves_cons _ _ _ _ _ Hx).
    destruct (IH (subscribed x cb s st)) as (Hr & Hc & Hn & Hobs).
    + intros y Hy. simpl. apply Hbefore. by right.
    + done.
    + done.
    + destruct (onMultiple (before ++ name :: after) cb s (subscribed x cb s st))
        as [[h|err] st'] eqn:Hrun; simpl in *; [done|].
      split; [done|]. split; [done|]. split; [lia|]. intros e.
      rewrite Hobs, observers_of_subscribed, filter_cons.
      destruct (decide (x = e)) as [Hd|Hd].
      * rewrite length_app. simpl. lia.
      * lia.
Qed.

Lemma onMultiple_throw_leaves_subscriptions_witness :
  let st := (triggerUnique "site_plugins_loaded" VNull None initial).2 in
  let outcome := onMultiple ["login"; "site_plugins_loaded"; "logout"] (Callback 1 true) None st in
  replayed st "site_plugins_loaded" = Some VNull
  ∧ outcome.1 = Thrown (CallbackThrew 1)
  ∧ observers_of outcome.2 "login" = [MkSubscriber 0 (Callback 1 true) None]
  ∧ length (observers_of outcome.2 "logout") = 0.
Proof.
  split; [reflexivity|].
  destruct (onMultiple_throw_leaves_subscriptions ["login"] ["logout"] "site_plugins_loaded"
              VNull (Callback 1 true) None
              (triggerUnique "site_plugins_loaded" VNull None initial).2)
    as (Hthrown & _ & _ & Hobs).
  - intros x ->%list_elem_of_singleton. reflexivity.
  - reflexivity.
  - reflexivity.
  - split; [exact Hthrown|]. split; [reflexivity|]. exact (Hobs "logout").
Defined.

End Names.
